(** * gist7651991 and go/format: line segmentation, the fan-out/fan-in
      engine, and source formatting

    The development follows the two source files.

    - [Lines]: [ProcessLinesFromReader] over a [bufio.Reader].
    - [Engine]: [GoReduceLinesFromReader] and [GoReduce] as an interleaving
      semantics of their goroutines (coordinator, workers, caller, runtime).
    - [Format]: [format.Source], [format.Node], [hasUnsortedImports],
      [parse] and [isSpace], over an abstract go/parser and go/printer. *)

From Equations Require Import Equations.
From stdpp Require Import base option list strings gmap.
From Stdlib Require Import ZArith Lia Ascii.

Set Default Proof Using "Type".
Local Open Scope Z_scope.

(** Go's [byte]; a Go [string] and a [[]byte] are both byte sequences. *)
Abbreviation byte := ascii (only parsing).

Definition nl : byte := "010"%char.
Definition tab : byte := "009"%char.
Definition cr : byte := "013"%char.
Definition sp : byte := " "%char.

(** Literal text as bytes. *)
Definition B (s : string) : list byte := String.list_ascii_of_string s.

(* ================================================================== *)
(** * Line segmentation: [ProcessLinesFromReader] *)
(* ================================================================== *)

Module Lines.

(** The [error] values a read can end with: [io.EOF], or any other error of
    the underlying [io.Reader]. *)
Inductive error :=
| EOF
| ErrRead (msg : string).

(** A [bufio.Reader] over an [io.Reader]: the bytes the source still
    delivers before its first error, and that error. *)
Record Reader := {
  unread : list byte;
  fails : error
}.

(** Scan for the first [delim]: the bytes up to and including it, and the
    bytes after it; [None] when [delim] does not occur. *)
Fixpoint cut (delim : byte) (bs : list byte) : option (list byte * list byte) :=
  match bs with
  | [] => None
  | b :: bs' =>
      if decide (b = delim) then Some ([b], bs')
      else match cut delim bs' with
           | Some (l, r) => Some (b :: l, r)
           | None => None
           end
  end.

(** [bufio.Reader.ReadString]: reads until the first occurrence of [delim]
    and returns the data up to and including it; when the source fails
    before a delimiter is found, it returns the data read so far and the
    error. The error is non-nil exactly when the data does not end in
    [delim]. *)
Definition ReadString (br : Reader) (delim : byte)
  : list byte * option error * Reader :=
  match cut delim (unread br) with
  | Some (l, r) => (l, None, {| unread := r; fails := fails br |})
  | None => (unread br, Some (fails br), {| unread := []; fails := fails br |})
  end.

(** The slice expression [line[:len(line)-1]]. *)
Definition trim_last (line : list byte) : list byte :=
  take (length line - 1)%nat line.

Lemma cut_shorter delim bs l r :
  cut delim bs = Some (l, r) → (length r < length bs)%nat.
Proof.
  revert l r. induction bs as [|b bs IH]; intros l r; simpl; [done|].
  case_decide.
  - intros [= <- <-]. lia.
  - destruct (cut delim bs) as [[l' r']|] eqn:E; [|done].
    intros [= <- <-]. specialize (IH _ _ eq_refl). lia.
Qed.

Lemma ReadString_shorter br delim line br' :
  ReadString br delim = (line, None, br') →
  (length (unread br') < length (unread br))%nat.
Proof.
  unfold ReadString. destruct (cut delim (unread br)) as [[l r]|] eqn:E; [|done].
  intros [= <- <-]. simpl. by eapply cut_shorter.
Qed.

(** [ProcessLinesFromReader]: the callback [processFunc] acts on a state
    [St] of the caller's; the loop runs while [err == nil]. *)
Definition inspect {A} (a : A) : {b | a = b} := exist _ a eq_refl.

Section Loop.
Context {St : Type} (processFunc : list byte → St → St).

Equations? lines_loop (br : Reader) (s : St) : St
  by wf (length (unread br)) lt :=
  lines_loop br s with inspect (ReadString br nl) := {
    | exist _ (line, None, br') Heq :=
        lines_loop br' (processFunc (trim_last line) s)
    | exist _ (_, Some _, _) _ := s
  }.
Proof. by eapply ReadString_shorter. Qed.

Definition ProcessLinesFromReader (r : Reader) (s : St) : St :=
  lines_loop r s.

End Loop.

(** The arguments the callback is invoked with, in invocation order. *)
Definition calls (r : Reader) : list (list byte) :=
  ProcessLinesFromReader (λ line acc, acc ++ [line]) r [].

(** ** Specification side: a stream as terminated lines and a remainder *)

(** [terminated ls]: the lines [ls], each followed by the delimiter. *)
Definition terminated (ls : list (list byte)) : list byte :=
  concat (map (λ l, l ++ [nl]) ls).

(** Every byte stream is a sequence of delimiter-terminated lines followed
    by a remainder without delimiter (the unterminated final line, or
    nothing). *)
Fixpoint segments (bs : list byte) : list (list byte) * list byte :=
  match bs with
  | [] => ([], [])
  | b :: bs' =>
      let '(ls, t) := segments bs' in
      if decide (b = nl) then ([] :: ls, t)
      else match ls with
           | [] => ([], b :: t)
           | l :: ls' => ((b :: l) :: ls', t)
           end
  end.

Lemma segments_spec bs :
  let '(ls, t) := segments bs in
  bs = terminated ls ++ t ∧ Forall (λ l, nl ∉ l) ls ∧ nl ∉ t.
Proof.
  induction bs as [|b bs IH]; simpl.
  - repeat split; [constructor | apply not_elem_of_nil].
  - destruct (segments bs) as [ls t]. destruct IH as (-> & Hls & Ht).
    case_decide as Hb.
    + subst b. repeat split; [|done]. constructor; [apply not_elem_of_nil | done].
    + destruct ls as [|l ls]; simpl.
      * repeat split; [done|]. rewrite not_elem_of_cons. split; [congruence | done].
      * inversion_clear Hls as [|? ? Hl Hls']. repeat split; [|done].
        constructor; [|done]. rewrite not_elem_of_cons. split; [congruence | done].
Qed.

Lemma cut_terminated l rest :
  nl ∉ l → cut nl (l ++ nl :: rest) = Some (l ++ [nl], rest).
Proof.
  induction l as [|b l IH]; intros Hl.
  - cbn [app cut]. by rewrite decide_True.
  - apply not_elem_of_cons in Hl as [Hb Hl]. cbn [app cut].
    rewrite decide_False by congruence. by rewrite IH.
Qed.

Lemma cut_none t : nl ∉ t → cut nl t = None.
Proof.
  induction t as [|b t IH]; intros Ht; [done|].
  apply not_elem_of_cons in Ht as [Hb Ht]. cbn [cut].
  rewrite decide_False by congruence. by rewrite IH.
Qed.

Lemma trim_last_terminated l : trim_last (l ++ [nl]) = l.
Proof.
  unfold trim_last. rewrite length_app. simpl.
  replace (length l + 1 - 1)%nat with (length l) by lia.
  by rewrite take_app_length.
Qed.

(** One turn of the loop, as the source writes it. *)
Lemma lines_loop_turn {St} (f : list byte → St → St) br s :
  lines_loop f br s =
    match ReadString br nl with
    | (line, None, br') => lines_loop f br' (f (trim_last line) s)
    | (_, Some _, _) => s
    end.
Proof.
  funelim (lines_loop f br s).
  - by rewrite e.
  - by rewrite Heq.
Qed.

Lemma lines_loop_terminated {St} (f : list byte → St → St) ls t e s :
  Forall (λ l, nl ∉ l) ls → nl ∉ t →
  lines_loop f {| unread := terminated ls ++ t; fails := e |} s
  = foldl (λ acc l, f l acc) s ls.
Proof.
  intros Hls Ht. revert s. induction Hls as [|l ls Hl Hls IH]; intros s.
  - rewrite lines_loop_turn. unfold ReadString. simpl. by rewrite cut_none.
  - rewrite lines_loop_turn. unfold ReadString. cbn [unread fails].
    change (terminated (l :: ls)) with ((l ++ [nl]) ++ terminated ls).
    rewrite <- !app_assoc. cbn [app]. rewrite cut_terminated by done.
    rewrite trim_last_terminated. apply IH.
Qed.

Lemma foldl_snoc {A} (ls : list A) acc :
  foldl (λ acc l, acc ++ [l]) acc ls = acc ++ ls.
Proof.
  revert acc. induction ls as [|l ls IH]; intros acc; simpl.
  - by rewrite app_nil_r.
  - rewrite IH. by rewrite <- app_assoc.
Qed.

Lemma calls_terminated ls t e :
  Forall (λ l, nl ∉ l) ls → nl ∉ t →
  calls {| unread := terminated ls ++ t; fails := e |} = ls.
Proof.
  intros Hls Ht. unfold calls, ProcessLinesFromReader.
  rewrite lines_loop_terminated by done. by rewrite foldl_snoc.
Qed.

(** ** Counting and concatenation *)

(** The number of newline bytes of a text. *)
Definition newlines (bs : list byte) : nat :=
  length (List.filter (λ b, bool_decide (b = nl)) bs).

Lemma calls_segments data e :
  calls {| unread := data; fails := e |} = (segments data).1.
Proof.
  pose proof (segments_spec data) as H.
  destruct (segments data) as [ls t]. destruct H as (-> & Hls & Ht).
  by apply calls_terminated.
Qed.

Lemma lines_loop_segments {St} (f : list byte → St → St) data e s :
  lines_loop f {| unread := data; fails := e |} s
  = foldl (λ acc l, f l acc) s (segments data).1.
Proof.
  pose proof (segments_spec data) as H.
  destruct (segments data) as [ls t]. destruct H as (-> & Hls & Ht).
  by apply lines_loop_terminated.
Qed.

Lemma segments_length data : length (segments data).1 = newlines data.
Proof.
  unfold newlines. induction data as [|b bs IH]; [done|]. cbn [segments].
  destruct (segments bs) as [ls t]. cbn [List.filter].
  destruct (decide (b = nl)) as [->|Hb].
  - rewrite bool_decide_eq_true_2 by done. simpl in *. by rewrite IH.
  - rewrite bool_decide_eq_false_2 by done. rewrite <- IH.
    by destruct ls.
Qed.

Lemma segments_snoc_nl a :
  ∃ l ls, (segments (a ++ [nl])).1 = l :: ls ∧ (segments (a ++ [nl])).2 = [].
Proof.
  induction a as [|b a (l & ls & E1 & E2)].
  - by exists [], [].
  - change ((b :: a) ++ [nl]) with (b :: (a ++ [nl])). cbn [segments].
    destruct (segments (a ++ [nl])) as [ls' t]. simpl in E1, E2. subst.
    destruct (decide (b = nl)); [by exists [], (l :: ls) | by exists (b :: l), ls].
Qed.

Lemma segments_app_nl a d :
  (segments (a ++ nl :: d)).1 = (segments (a ++ [nl])).1 ++ (segments d).1.
Proof.
  induction a as [|b a IH].
  - change ([] ++ nl :: d) with (nl :: d). cbn [segments].
    destruct (segments d) as [ls t]. by rewrite decide_True.
  - change ((b :: a) ++ nl :: d) with (b :: (a ++ nl :: d)).
    change ((b :: a) ++ [nl]) with (b :: (a ++ [nl])). cbn [segments].
    destruct (segments_snoc_nl a) as (l & ls & E1 & E2).
    destruct (segments (a ++ nl :: d)) as [ls1 t1].
    destruct (segments (a ++ [nl])) as [ls2 t2].
    simpl in IH, E1, E2. subst.
    destruct (decide (b = nl)); done.
Qed.

End Lines.

(* ================================================================== *)
(** * The fan-out/fan-in engine: [GoReduceLinesFromReader], [GoReduce] *)
(* ================================================================== *)

Module Engine.

(** The goroutines of a run are interleaved one step at a time. Both
    channels are unbuffered: a send and the matching receive are one step.
    The producer sends its items in order; the consumer of [outChan]
    receives whenever a worker is ready to send. A deferred call runs when
    its function returns and also while a panic unwinds it; a send on, or
    a close of, a closed channel panics, and so does a negative
    [WaitGroup] counter; a panic that no goroutine recovers makes the
    runtime end the program.

    The two entry points differ in who feeds and closes [inChan]:
    [GoReduceLinesFromReader] runs [ProcessLinesFromReader] and closes the
    channel itself; [GoReduce] receives the channel from its caller, who
    "is expected to close inChan after sending all input to it". *)
Inductive source := FromReader | FromChan.

Section Model.
Context {Item Res : Type}.

(** A value of type [interface{}]: [None] is [nil]. *)
Abbreviation iface := (option Res).

(** What a call [reduceFunc(in)] does: it panics, or it returns a value. *)
Inductive outcome :=
| Panics
| Returns (out : iface).

Context (reduceFunc : Item → outcome) (src : source) (numWorkers : Z).

(** Program points of a worker goroutine (the [go func()] of the loop). *)
Inductive worker :=
| WRecv                      (* in, ok := <-inChan *)
| WReduce (x : Item)         (* out := reduceFunc(in) *)
| WSend (v : iface)          (* outChan <- out *)
| WDefer (panicking : bool)  (* body left by return or by a panic:
                                the deferred wg.Done() is about to run *)
| WExit                      (* goroutine ended by returning *)
| WFatal.                    (* goroutine unwound by an unrecovered panic *)

(** Program points of the coordinating goroutine (the outer [go func()]). *)
Inductive coord :=
| CLoop (k : Z)   (* loop test, worker = k *)
| CGo (k : Z)     (* wg.Add(1) done, at the go statement *)
| CFeed           (* in ProcessLinesFromReader, then close(inChan) *)
| CWait           (* wg.Wait() *)
| CCloseOut       (* close(outChan) *)
| CExit           (* goroutine ended *)
| CFatal.         (* unrecovered panic *)

Record state := {
  co : coord;
  wg : Z;                  (* counter of the sync.WaitGroup *)
  ws : list worker;        (* the worker goroutines started so far *)
  pending : list Item;     (* what the producer has still to send on inChan *)
  in_closed : bool;        (* inChan is closed *)
  out : list iface;        (* what the consumer has received from outChan *)
  out_closed : bool;       (* outChan is closed *)
  crashed : bool           (* the runtime has ended the program *)
}.

Definition with_co (c : coord) (s : state) : state :=
  {| co := c; wg := wg s; ws := ws s; pending := pending s;
     in_closed := in_closed s; out := out s; out_closed := out_closed s;
     crashed := crashed s |}.
Definition with_wg (n : Z) (s : state) : state :=
  {| co := co s; wg := n; ws := ws s; pending := pending s;
     in_closed := in_closed s; out := out s; out_closed := out_closed s;
     crashed := crashed s |}.
Definition with_ws (l : list worker) (s : state) : state :=
  {| co := co s; wg := wg s; ws := l; pending := pending s;
     in_closed := in_closed s; out := out s; out_closed := out_closed s;
     crashed := crashed s |}.
Definition with_pending (l : list Item) (s : state) : state :=
  {| co := co s; wg := wg s; ws := ws s; pending := l;
     in_closed := in_closed s; out := out s; out_closed := out_closed s;
     crashed := crashed s |}.
Definition with_in_closed (b : bool) (s : state) : state :=
  {| co := co s; wg := wg s; ws := ws s; pending := pending s;
     in_closed := b; out := out s; out_closed := out_closed s;
     crashed := crashed s |}.
Definition with_out (l : list iface) (s : state) : state :=
  {| co := co s; wg := wg s; ws := ws s; pending := pending s;
     in_closed := in_closed s; out := l; out_closed := out_closed s;
     crashed := crashed s |}.
Definition with_out_closed (b : bool) (s : state) : state :=
  {| co := co s; wg := wg s; ws := ws s; pending := pending s;
     in_closed := in_closed s; out := out s; out_closed := b;
     crashed := crashed s |}.
Definition with_crashed (b : bool) (s : state) : state :=
  {| co := co s; wg := wg s; ws := ws s; pending := pending s;
     in_closed := in_closed s; out := out s; out_closed := out_closed s;
     crashed := b |}.

Definition with_worker (i : nat) (w : worker) (s : state) : state :=
  with_ws (<[i := w]> (ws s)) s.

(** What an observer of the run sees. *)
Inductive event :=
| EvAdd                           (* wg.Add(1) *)
| EvGo (i : nat)                  (* worker i started *)
| EvLoopEnd
| EvRecv (i : nat) (x : Item)     (* worker i received x from inChan *)
| EvRecvClosed (i : nat)          (* worker i found inChan closed *)
| EvReduced (i : nat) (x : Item) (v : iface)  (* reduceFunc(x) returned v *)
| EvPanic (i : nat)               (* a panic started in worker i *)
| EvDeliver (i : nat) (v : iface) (* worker i's send on outChan completed *)
| EvDone (i : nat)                (* worker i's deferred wg.Done() *)
| EvCloseIn                       (* close(inChan) *)
| EvWaited                        (* wg.Wait() returned *)
| EvCloseOut                      (* close(outChan) *)
| EvCoordPanic
| EvCrash.                        (* the runtime ends the program *)

(** The goroutine (or the runtime) that takes the next step. *)
Inductive thread :=
| TCoord
| TWorker (i : nat)
| TCaller
| TRuntime.

(** A sender is blocked on [inChan]: the coordinator inside
    [ProcessLinesFromReader]'s callback, or the caller of [GoReduce]. *)
Definition sender_ready (s : state) : bool :=
  match src with
  | FromChan => true
  | FromReader => match co s with CFeed => true | _ => false end
  end.

Definition is_nil (v : iface) : bool :=
  match v with None => true | Some _ => false end.

Definition step_worker (i : nat) (s : state) : option (event * state) :=
  match ws s !! i with
  | Some WRecv =>
      if in_closed s then
        (* ok is false: return *)
        Some (EvRecvClosed i, with_worker i (WDefer false) s)
      else
        match pending s with
        | x :: rest =>
            if sender_ready s
            then Some (EvRecv i x, with_worker i (WReduce x) (with_pending rest s))
            else None
        | [] => None
        end
  | Some (WReduce x) =>
      match reduceFunc x with
      | Panics => Some (EvPanic i, with_worker i (WDefer true) s)
      | Returns v =>
          if is_nil v
          then Some (EvReduced i x v, with_worker i WRecv s)
          else Some (EvReduced i x v, with_worker i (WSend v) s)
      end
  | Some (WSend v) =>
      if out_closed s then
        (* send on a closed channel *)
        Some (EvPanic i, with_worker i (WDefer true) s)
      else
        Some (EvDeliver i v, with_worker i WRecv (with_out (out s ++ [v]) s))
  | Some (WDefer p) =>
      if wg s - 1 <? 0 then
        (* sync: negative WaitGroup counter *)
        Some (EvPanic i, with_worker i WFatal (with_wg (wg s - 1) s))
      else
        Some (EvDone i,
              with_worker i (if p then WFatal else WExit) (with_wg (wg s - 1) s))
  | Some WExit | Some WFatal | None => None
  end.

Definition step_coord (s : state) : option (event * state) :=
  match co s with
  | CLoop k =>
      if k <? numWorkers
      then Some (EvAdd, with_co (CGo k) (with_wg (wg s + 1) s))
      else Some (EvLoopEnd,
                 with_co (match src with FromReader => CFeed | FromChan => CWait end) s)
  | CGo k =>
      Some (EvGo (length (ws s)),
            with_co (CLoop (k + 1)) (with_ws (ws s ++ [WRecv]) s))
  | CFeed =>
      if in_closed s then
        (* send on, or close of, a closed channel *)
        Some (EvCoordPanic, with_co CFatal s)
      else
        match pending s with
        | [] => Some (EvCloseIn, with_co CWait (with_in_closed true s))
        | _ :: _ => None   (* blocked in inChan <- in *)
        end
  | CWait =>
      if wg s =? 0 then Some (EvWaited, with_co CCloseOut s) else None
  | CCloseOut =>
      if out_closed s then Some (EvCoordPanic, with_co CFatal s)
      else Some (EvCloseOut, with_co CExit (with_out_closed true s))
  | CExit | CFatal => None
  end.

(** The caller of [GoReduce] closes [inChan] after its last send. *)
Definition step_caller (s : state) : option (event * state) :=
  match src, pending s, in_closed s with
  | FromChan, [], false => Some (EvCloseIn, with_in_closed true s)
  | _, _, _ => None
  end.

Definition fatal (w : worker) : bool :=
  match w with WFatal => true | _ => false end.

(** A goroutine that panicked without recovering ends the program. *)
Definition step_runtime (s : state) : option (event * state) :=
  if existsb fatal (ws s) || match co s with CFatal => true | _ => false end
  then Some (EvCrash, with_crashed true s)
  else None.

Definition step (t : thread) (s : state) : option (event * state) :=
  if crashed s then None
  else match t with
       | TCoord => step_coord s
       | TWorker i => step_worker i s
       | TCaller => step_caller s
       | TRuntime => step_runtime s
       end.

(** A run under a schedule: the events observed and the state reached.
    A schedule that picks a blocked goroutine is no run. *)
Fixpoint run (sched : list thread) (s : state) : option (list event * state) :=
  match sched with
  | [] => Some ([], s)
  | t :: sched' =>
      match step t s with
      | None => None
      | Some (e, s') =>
          match run sched' s' with
          | None => None
          | Some (tr, s'') => Some (e :: tr, s'')
          end
      end
  end.

(** The state in which the engine starts, given what the producer will
    send. *)
Definition start (items : list Item) : state :=
  {| co := CLoop 0; wg := 0; ws := []; pending := items; in_closed := false;
     out := []; out_closed := false; crashed := false |}.

(** No goroutine can move. *)
Definition stuck (s : state) : bool :=
  bool_decide (step TCoord s = None ∧ step TCaller s = None
               ∧ step TRuntime s = None)
  && forallb (λ i, match step (TWorker i) s with None => true | _ => false end)
       (seq 0 (length (ws s))).

(** The steps, one rule per branch of the step functions. *)
Inductive step_spec (s : state) : thread → event → state → Prop :=
| S_add k :
    co s = CLoop k → k < numWorkers →
    step_spec s TCoord EvAdd (with_co (CGo k) (with_wg (wg s + 1) s))
| S_loop_end k :
    co s = CLoop k → ¬ k < numWorkers →
    step_spec s TCoord EvLoopEnd
      (with_co (match src with FromReader => CFeed | FromChan => CWait end) s)
| S_go k :
    co s = CGo k →
    step_spec s TCoord (EvGo (length (ws s)))
      (with_co (CLoop (k + 1)) (with_ws (ws s ++ [WRecv]) s))
| S_feed_panic :
    co s = CFeed → in_closed s = true →
    step_spec s TCoord EvCoordPanic (with_co CFatal s)
| S_close_in :
    co s = CFeed → in_closed s = false → pending s = [] →
    step_spec s TCoord EvCloseIn (with_co CWait (with_in_closed true s))
| S_waited :
    co s = CWait → wg s = 0 →
    step_spec s TCoord EvWaited (with_co CCloseOut s)
| S_close_out_panic :
    co s = CCloseOut → out_closed s = true →
    step_spec s TCoord EvCoordPanic (with_co CFatal s)
| S_close_out :
    co s = CCloseOut → out_closed s = false →
    step_spec s TCoord EvCloseOut (with_co CExit (with_out_closed true s))
| S_recv_closed i :
    ws s !! i = Some WRecv → in_closed s = true →
    step_spec s (TWorker i) (EvRecvClosed i) (with_worker i (WDefer false) s)
| S_recv i x rest :
    ws s !! i = Some WRecv → in_closed s = false →
    pending s = x :: rest → sender_ready s = true →
    step_spec s (TWorker i) (EvRecv i x)
      (with_worker i (WReduce x) (with_pending rest s))
| S_reduce_panic i x :
    ws s !! i = Some (WReduce x) → reduceFunc x = Panics →
    step_spec s (TWorker i) (EvPanic i) (with_worker i (WDefer true) s)
| S_reduce_nil i x v :
    ws s !! i = Some (WReduce x) → reduceFunc x = Returns v → is_nil v = true →
    step_spec s (TWorker i) (EvReduced i x v) (with_worker i WRecv s)
| S_reduce_val i x v :
    ws s !! i = Some (WReduce x) → reduceFunc x = Returns v → is_nil v = false →
    step_spec s (TWorker i) (EvReduced i x v) (with_worker i (WSend v) s)
| S_send_panic i v :
    ws s !! i = Some (WSend v) → out_closed s = true →
    step_spec s (TWorker i) (EvPanic i) (with_worker i (WDefer true) s)
| S_deliver i v :
    ws s !! i = Some (WSend v) → out_closed s = false →
    step_spec s (TWorker i) (EvDeliver i v)
      (with_worker i WRecv (with_out (out s ++ [v]) s))
| S_done_panic i p :
    ws s !! i = Some (WDefer p) → wg s - 1 < 0 →
    step_spec s (TWorker i) (EvPanic i)
      (with_worker i WFatal (with_wg (wg s - 1) s))
| S_done i p :
    ws s !! i = Some (WDefer p) → ¬ wg s - 1 < 0 →
    step_spec s (TWorker i) (EvDone i)
      (with_worker i (if p then WFatal else WExit) (with_wg (wg s - 1) s))
| S_caller_close :
    src = FromChan → pending s = [] → in_closed s = false →
    step_spec s TCaller EvCloseIn (with_in_closed true s)
| S_crash :
    existsb fatal (ws s) || match co s with CFatal => true | _ => false end = true →
    step_spec s TRuntime EvCrash (with_crashed true s).

Lemma step_alive t s e s' : step t s = Some (e, s') → crashed s = false.
Proof. unfold step. by destruct (crashed s). Qed.

Lemma step_sound t s e s' : step t s = Some (e, s') → step_spec s t e s'.
Proof.
  unfold step. destruct (crashed s); [done|]. destruct t as [|i| |].
  - unfold step_coord. destruct (co s) as [k|k| | | | |] eqn:Hco.
    + destruct (Z.ltb_spec k numWorkers); intros [= <- <-];
        [by eapply S_add | eapply S_loop_end; [done | lia]].
    + intros [= <- <-]. by eapply S_go.
    + destruct (in_closed s) eqn:?; [intros [= <- <-]; by eapply S_feed_panic|].
      destruct (pending s) eqn:?; [|done]. intros [= <- <-]. by eapply S_close_in.
    + destruct (Z.eqb_spec (wg s) 0); [|done]. intros [= <- <-]. by eapply S_waited.
    + destruct (out_closed s) eqn:?; intros [= <- <-];
        [by eapply S_close_out_panic | by eapply S_close_out].
    + done.
    + done.
  - unfold step_worker. destruct (ws s !! i) as [[|x|v|p| |]|] eqn:Hw; try done.
    + destruct (in_closed s) eqn:?; [intros [= <- <-]; by eapply S_recv_closed|].
      destruct (pending s) as [|x rest] eqn:?; [done|].
      destruct (sender_ready s) eqn:?; [|done].
      intros [= <- <-]. by eapply S_recv.
    + destruct (reduceFunc x) as [|v] eqn:?;
        [intros [= <- <-]; by eapply S_reduce_panic|].
      destruct (is_nil v) eqn:?; intros [= <- <-];
        [by eapply S_reduce_nil | by eapply S_reduce_val].
    + destruct (out_closed s) eqn:?; intros [= <- <-];
        [by eapply S_send_panic | by eapply S_deliver].
    + destruct (Z.ltb_spec (wg s - 1) 0); intros [= <- <-];
        [by eapply S_done_panic | eapply S_done; [done | lia]].
  - unfold step_caller. destruct src eqn:?; [done|].
    destruct (pending s) eqn:?; [|done]. destruct (in_closed s) eqn:?; [done|].
    intros [= <- <-]. by eapply S_caller_close.
  - unfold step_runtime.
    destruct (existsb fatal (ws s) || _) eqn:?; [|done].
    intros [= <- <-]. by eapply S_crash.
Qed.

(** ** Runs *)

Lemma run_app a b s :
  run (a ++ b) s =
    match run a s with
    | None => None
    | Some (tr1, s1) =>
        match run b s1 with
        | None => None
        | Some (tr2, s2) => Some (tr1 ++ tr2, s2)
        end
    end.
Proof.
  revert s. induction a as [|t a IH]; intros s; simpl.
  - by destruct (run b s) as [[??]|].
  - destruct (step t s) as [[e s']|]; [|done]. rewrite IH.
    destruct (run a s') as [[tr1 s1]|]; [|done].
    by destruct (run b s1) as [[tr2 s2]|].
Qed.

Lemma run_length sched s tr s' :
  run sched s = Some (tr, s') → length tr = length sched.
Proof.
  revert s tr. induction sched as [|t a IH]; intros s tr; simpl.
  - by intros [= <- <-].
  - destruct (step t s) as [[e s1]|]; [|done].
    destruct (run a s1) as [[tr1 s2]|] eqn:E; [|done].
    intros [= <- <-]. simpl. f_equal. by eapply IH.
Qed.

(** Induction over the runs from a state, one step appended at a time. *)
Lemma run_ind_snoc (s0 : state) (P : list event → state → Prop) :
  P [] s0 →
  (∀ sched tr s t e s',
      run sched s0 = Some (tr, s) → P tr s →
      step t s = Some (e, s') → P (tr ++ [e]) s') →
  ∀ sched tr s, run sched s0 = Some (tr, s) → P tr s.
Proof.
  intros Hinit Hstep sched.
  induction sched as [|t sched IH] using rev_ind; intros tr s.
  - by intros [= <- <-].
  - rewrite run_app. destruct (run sched s0) as [[tr1 s1]|] eqn:E1; [|done].
    cbn [run]. destruct (step t s1) as [[e s2]|] eqn:E2; [|done].
    intros [= <- <-]. eapply Hstep; [apply E1 | by apply IH | done].
Qed.

(** ** Control invariant *)

(** A worker whose goroutine has not ended yet. *)
Definition live (w : worker) : bool :=
  match w with WExit | WFatal => false | _ => true end.

Definition live_count (l : list worker) : nat := length (List.filter live l).
Arguments live_count : simpl never.

(** A worker that left its loop through [return]. *)
Definition returned (w : worker) : bool :=
  match w with WDefer false | WExit => true | _ => false end.

Definition b2n (b : bool) : nat := if b then 1%nat else 0%nat.

Lemma live_count_snoc l w : live_count (l ++ [w]) = (live_count l + b2n (live w))%nat.
Proof.
  unfold live_count. rewrite List.filter_app, length_app. simpl.
  by destruct (live w).
Qed.

Lemma live_count_insert l i w w' :
  l !! i = Some w →
  (live_count (<[i := w']> l) + b2n (live w) = live_count l + b2n (live w'))%nat.
Proof.
  revert i. induction l as [|a l IH]; intros [|i]; simpl; try done.
  - intros [= ->]. unfold live_count. simpl.
    destruct (live w), (live w'); simpl; lia.
  - intros H. specialize (IH _ H). unfold live_count in *. simpl.
    destruct (live a); simpl; lia.
Qed.

Lemma live_count_0 l i w : l !! i = Some w → live_count l = 0%nat → live w = false.
Proof.
  intros H H0. pose proof (live_count_insert l i w WExit H) as E.
  destruct (live w); simpl in *; [lia | done].
Qed.

Record control_inv (s : state) : Prop := {
  ci_wg : wg s = Z.of_nat (live_count (ws s))
                 + match co s with CGo _ => 1 | _ => 0 end;
  ci_co : match co s with
          | CLoop k => 0 ≤ k ≤ Z.max 0 numWorkers ∧ Z.of_nat (length (ws s)) = k
          | CGo k => 0 ≤ k < numWorkers ∧ Z.of_nat (length (ws s)) = k
          | CFeed => src = FromReader
                     ∧ Z.of_nat (length (ws s)) = Z.max 0 numWorkers
          | CFatal => False
          | _ => Z.of_nat (length (ws s)) = Z.max 0 numWorkers
          end;
  ci_out : out_closed s = match co s with CExit => true | _ => false end;
  ci_dead : match co s with
            | CCloseOut | CExit => live_count (ws s) = 0%nat
            | _ => True
            end;
  ci_in : src = FromReader →
          in_closed s = match co s with
                        | CWait | CCloseOut | CExit => true
                        | _ => false
                        end;
  ci_pending : in_closed s = true → pending s = [];
  ci_ret : ∀ i w, ws s !! i = Some w → returned w = true → in_closed s = true
}.

Lemma control_inv_start items : control_inv (start items).
Proof. split; simpl; try done; lia. Qed.

Lemma control_inv_step t s e s' :
  control_inv s → step t s = Some (e, s') → control_inv s'.
Proof.
  intros [Hwg Hco Hout Hdead Hin Hpend Hret] Hstep.
  apply step_sound in Hstep.
  destruct Hstep; split;
    cbn [co wg ws pending in_closed out out_closed crashed with_co with_wg
         with_ws with_pending with_in_closed with_out with_out_closed
         with_crashed with_worker];
    intros;
    repeat match goal with
      | H : co s = _ |- _ => rewrite H in *; clear H
      end;
    try match goal with
      | H : ws s !! ?i = Some ?w
        |- context [live_count (<[?i := ?w']> (ws s))] =>
          pose proof (live_count_insert _ _ _ w' H)
      end;
    try match goal with
      | H : ws s !! ?i = Some ?w |- _ =>
          pose proof (Hret _ _ H); pose proof (live_count_0 _ _ _ H)
      end;
    try match goal with
      | H : <[_ := _]> (ws s) !! _ = Some _ |- _ =>
          apply list_lookup_insert_Some in H as [(-> & <- & ?)|[? ?]]
      | H : (ws s ++ [_]) !! _ = Some _ |- _ =>
          apply lookup_app_Some in H as [?|[? H]];
          [|apply list_lookup_singleton_Some in H as [? <-]]
      end;
    rewrite ?live_count_snoc, ?length_app, ?length_insert in *;
    cbn [b2n live returned length] in *.
  all: try (destruct src; simplify_eq/=; done || lia).
  all: try (destruct src; repeat case_match; simplify_eq/=; done || lia).
  all: try (destruct src; repeat case_match; simplify_eq/=;
            intuition (congruence || lia)).
  all: destruct_and?; simplify_eq;
    repeat match goal with H : ?x = ?x → _ |- _ => specialize (H eq_refl) end;
    try congruence.
  all: eauto.
Qed.

Lemma control_inv_run items sched tr s :
  run sched (start items) = Some (tr, s) → control_inv s.
Proof.
  revert sched tr s.
  apply (run_ind_snoc (start items) (λ _ s, control_inv s)).
  - apply control_inv_start.
  - intros. by eapply control_inv_step.
Qed.

(** The branches that panic on a closed channel or on a negative counter
    are never taken. *)
Lemma send_finds_open s i v :
  control_inv s → ws s !! i = Some (WSend v) → out_closed s = false.
Proof.
  intros [_ _ Hout Hdead _ _ _] Hw. rewrite Hout.
  destruct (co s); try done.
  by pose proof (live_count_0 _ _ _ Hw Hdead).
Qed.

Lemma done_finds_positive s i p :
  control_inv s → ws s !! i = Some (WDefer p) → ¬ wg s - 1 < 0.
Proof.
  intros [Hwg _ _ _ _ _ _] Hw.
  pose proof (live_count_insert _ _ _ WExit Hw) as E. simpl in E.
  destruct (co s); lia.
Qed.

Lemma feed_finds_open s :
  control_inv s → co s = CFeed → in_closed s = false.
Proof.
  intros [_ Hco _ _ Hin _ _] E. rewrite E in Hco, Hin.
  destruct Hco as [Hs _]. exact (Hin Hs).
Qed.

Lemma close_finds_open s :
  control_inv s → co s = CCloseOut → out_closed s = false.
Proof. intros [_ _ Hout _ _ _ _] E. by rewrite E in *. Qed.

Lemma coord_never_fatal s : control_inv s → co s ≠ CFatal.
Proof. intros [_ Hco _ _ _ _ _] E. by rewrite E in *. Qed.

(** The steps that are taken from a state of a run. *)
Ltac step_cases Hinv Hstep :=
  apply step_sound in Hstep; destruct Hstep;
  try match goal with
    | H : ws _ !! _ = Some (WSend _), H' : out_closed _ = true |- _ =>
        rewrite (send_finds_open _ _ _ Hinv H) in H'; discriminate H'
    | H : ws _ !! _ = Some (WDefer _), H' : wg _ - 1 < 0 |- _ =>
        destruct (done_finds_positive _ _ _ Hinv H H')
    | H : co _ = CFeed, H' : in_closed _ = true |- _ =>
        rewrite (feed_finds_open _ Hinv H) in H'; discriminate H'
    | H : co _ = CCloseOut, H' : out_closed _ = true |- _ =>
        rewrite (close_finds_open _ Hinv H) in H'; discriminate H'
    end.

(** ** Data invariant: where the results of the input items are *)

(** The value [reduceFunc(x)] contributes to the output: none when it is
    [nil] (or when the call panics). *)
Definition result_of (x : Item) : list iface :=
  match reduceFunc x with
  | Panics => []
  | Returns v => if is_nil v then [] else [v]
  end.

Definition results (l : list Item) : list iface := l ≫= result_of.

(** The output still owed by a worker for the item it holds. *)
Definition in_flight (w : worker) : list iface :=
  match w with
  | WReduce x => result_of x
  | WSend v => [v]
  | _ => []
  end.

(** A worker in which a panic is under way or has ended the goroutine. *)
Definition panicky (w : worker) : bool :=
  match w with WDefer true | WFatal => true | _ => false end.

Definition never_panics (items : list Item) : Prop :=
  ∀ x, x ∈ items → reduceFunc x ≠ Panics.

Lemma bind_insert_perm {A B} (f : A → list B) l i w w' :
  l !! i = Some w → (<[i := w']> l ≫= f) ++ f w ≡ₚ (l ≫= f) ++ f w'.
Proof.
  revert i. induction l as [|a l IH]; intros [|i] H; try done.
  - injection H as ->. change (<[0%nat := w']> (w :: l)) with (w' :: l).
    rewrite !bind_cons. solve_Permutation.
  - change (<[S i := w']> (a :: l)) with (a :: <[i := w']> l).
    rewrite !bind_cons, <- !app_assoc. by rewrite (IH _ H).
Qed.

Lemma count_step {A} (R O M P O' M' P' X Y : list A) :
  R ≡ₚ O ++ M ++ P → M' ++ X ≡ₚ M ++ Y → O ++ P ++ X ≡ₚ O' ++ P' ++ Y →
  R ≡ₚ O' ++ M' ++ P'.
Proof.
  intros HR HM HO. apply (Permutation_app_inv_r X). rewrite HR.
  transitivity (M ++ (O ++ P ++ X)); [solve_Permutation|]. rewrite HO.
  transitivity (O' ++ (M ++ Y) ++ P'); [solve_Permutation|]. rewrite <- HM.
  solve_Permutation.
Qed.

Record data_inv (items : list Item) (s : state) : Prop := {
  di_pending : pending s `suffix_of` items;
  di_reduce : ∀ i x, ws s !! i = Some (WReduce x) → x ∈ items;
  di_send : ∀ i v, ws s !! i = Some (WSend v) → is_nil v = false;
  di_out : Forall (λ v, is_nil v = false) (out s);
  di_count : results items ≡ₚ out s ++ (ws s ≫= in_flight) ++ results (pending s);
  di_nopanic : never_panics items →
               crashed s = false ∧ ∀ i w, ws s !! i = Some w → panicky w = false
}.

Lemma data_inv_start items : data_inv items (start items).
Proof.
  split; simpl; done.
Qed.

Lemma existsb_fatal_lookup l :
  existsb fatal l = true → ∃ i, l !! i = Some WFatal.
Proof.
  induction l as [|w l IH]; simpl; [done|].
  destruct w; simpl; try (intros H; destruct (IH H) as [i Hi]; by exists (S i)).
  intros _. by exists 0%nat.
Qed.

Lemma data_inv_step items t s e s' :
  control_inv s → data_inv items s → step t s = Some (e, s') → data_inv items s'.
Proof.
  intros Hc [Hpend Hred Hsend Hout Hcount Hnp] Hstep.
  step_cases Hc Hstep;
    try match goal with p : bool |- _ => destruct p end;
    try match goal with
      | H : pending s = _ :: _ |- _ => rewrite H in Hpend, Hcount
      end;
    split;
    cbn [co wg ws pending in_closed out out_closed crashed with_co with_wg
         with_ws with_pending with_in_closed with_out with_out_closed
         with_crashed with_worker];
    try done.
  (* where a worker's state is looked up after the step *)
  all: try (intros j y Hj;
            first [ apply list_lookup_insert_Some in Hj as [(-> & E & ?)|[? Hj]]
                  | apply lookup_app_Some in Hj as [Hj|[? Hj]];
                    [|apply list_lookup_singleton_Some in Hj as [? E]] ];
            simplify_eq; eauto; fail).
  (* the received item is one of the input *)
  all: try (intros j y Hj;
            apply list_lookup_insert_Some in Hj as [(-> & E & ?)|[? Hj]];
            simplify_eq; eauto;
            destruct Hpend as [pre ->];
            apply elem_of_app; right; by left).
  all: try (by eapply suffix_cons_l).
  all: try (apply Forall_app; split; [done|]; repeat constructor; by eauto).
  (* the count of results *)
  all: try (rewrite bind_app, app_nil_r; exact Hcount).
  all: try (eapply count_step;
            [ exact Hcount | eapply bind_insert_perm; eassumption | ];
            unfold results; rewrite ?bind_cons; cbn [in_flight];
            unfold result_of;
            repeat match goal with
              | H : reduceFunc _ = _ |- _ => rewrite H
              | H : is_nil _ = _ |- _ => rewrite H
              end;
            solve_Permutation).
  (* no panic without a panicking reduceFunc *)
  all: intros Hn; destruct (Hnp Hn) as [Hcr Hpk].
  all: try (split; [done|]; intros j y Hj;
            first [ apply list_lookup_insert_Some in Hj as [(-> & E & ?)|[? Hj]]
                  | apply lookup_app_Some in Hj as [Hj|[? Hj]];
                    [|apply list_lookup_singleton_Some in Hj as [? E]] ];
            simplify_eq; eauto; fail).
  - exfalso. eapply Hn; [eapply Hred|]; eassumption.
  - exfalso. match goal with H : ws s !! _ = Some _ |- _ =>
      by pose proof (Hpk _ _ H) end.
  - exfalso. match goal with H : _ || _ = true |- _ =>
      apply orb_true_iff in H as [H|H] end.
    + apply existsb_fatal_lookup in H as [i Hi]. by pose proof (Hpk _ _ Hi).
    + pose proof (coord_never_fatal _ Hc). by destruct (co s).
Qed.

Lemma data_inv_run items sched tr s :
  run sched (start items) = Some (tr, s) → data_inv items s.
Proof.
  revert sched tr s.
  apply (run_ind_snoc (start items) (λ _ s, data_inv items s)).
  - apply data_inv_start.
  - intros. eapply data_inv_step; [by eapply control_inv_run| |]; done.
Qed.

(** ** What the trace of a run records *)

Definition is_close (e : event) : bool :=
  match e with EvCloseOut => true | _ => false end.

(** How often [outChan] has been closed. *)
Definition closes (tr : list event) : nat := length (List.filter is_close tr).

(** The values sent on [outChan], in the order the consumer received them. *)
Definition delivered (tr : list event) : list iface :=
  omap (λ e, match e with EvDeliver _ v => Some v | _ => None end) tr.

(** The non-nil values [reduceFunc] has returned to workers. *)
Definition accepted (tr : list event) : list iface :=
  tr ≫= (λ e, match e with
              | EvReduced _ _ v => if is_nil v then [] else [v]
              | _ => []
              end).

(** The workers whose deferred [wg.Done()] has run. *)
Definition dones (tr : list event) : list nat :=
  omap (λ e, match e with EvDone i => Some i | _ => None end) tr.

(** The value a worker is about to send. *)
Definition held (w : worker) : list iface :=
  match w with WSend v => [v] | _ => [] end.

Lemma closes_snoc tr e : closes (tr ++ [e]) = (closes tr + b2n (is_close e))%nat.
Proof.
  unfold closes. rewrite List.filter_app, length_app. simpl.
  by destruct (is_close e).
Qed.

Lemma delivered_snoc tr e :
  delivered (tr ++ [e])
  = delivered tr ++ match e with EvDeliver _ v => [v] | _ => [] end.
Proof. unfold delivered. rewrite omap_app. by destruct e. Qed.

Lemma accepted_snoc tr e :
  accepted (tr ++ [e])
  = accepted tr ++ match e with
                   | EvReduced _ _ v => if is_nil v then [] else [v]
                   | _ => []
                   end.
Proof.
  unfold accepted. rewrite bind_app, bind_singleton. by destruct e.
Qed.

Lemma dones_snoc tr e :
  dones (tr ++ [e]) = dones tr ++ match e with EvDone i => [i] | _ => [] end.
Proof. unfold dones. rewrite omap_app. by destruct e. Qed.

Lemma acc_step {A} (R D M R' D' M' X Y : list A) :
  R ≡ₚ D ++ M → M' ++ X ≡ₚ M ++ Y → R' ++ D ++ X ≡ₚ R ++ D' ++ Y →
  R' ≡ₚ D' ++ M'.
Proof.
  intros HR HM H. apply (Permutation_app_inv_r (D ++ X)). rewrite H, HR.
  transitivity (D ++ D' ++ (M ++ Y)); [solve_Permutation|]. rewrite <- HM.
  solve_Permutation.
Qed.

Record trace_inv (tr : list event) (s : state) : Prop := {
  ti_out : out s = delivered tr;
  ti_acc : accepted tr ≡ₚ delivered tr ++ (ws s ≫= held);
  ti_done : ∀ i w, ws s !! i = Some w → live w = false → i ∈ dones tr;
  ti_closes : closes tr = b2n (out_closed s)
}.

Lemma trace_inv_start items : trace_inv [] (start items).
Proof. split; simpl; done. Qed.

Lemma trace_inv_step t tr s e s' :
  control_inv s → trace_inv tr s → step t s = Some (e, s') →
  trace_inv (tr ++ [e]) s'.
Proof.
  intros Hc [Hout Hacc Hdone Hcl] Hstep.
  step_cases Hc Hstep;
    try match goal with p : bool |- _ => destruct p end;
    split;
    rewrite ?closes_snoc, ?delivered_snoc, ?accepted_snoc, ?dones_snoc;
    cbn [co wg ws pending in_closed out out_closed crashed with_co with_wg
         with_ws with_pending with_in_closed with_out with_out_closed
         with_crashed with_worker is_close b2n];
    rewrite ?app_nil_r, ?Nat.add_0_r;
    try done.
  all: try (by rewrite Hout).
  all: try (rewrite Hcl;
            match goal with H : out_closed _ = _ |- _ => by rewrite H end).
  all: try (rewrite bind_app, app_nil_r; exact Hacc).
  all: try (eapply acc_step;
            [ exact Hacc | eapply bind_insert_perm; eassumption | ];
            cbn [held];
            repeat match goal with
              | H : is_nil _ = _ |- _ => rewrite H
              end;
            solve_Permutation).
  all: try (intros j y Hj Hl;
            first [ apply list_lookup_insert_Some in Hj as [(-> & E & ?)|[? Hj]]
                  | apply lookup_app_Some in Hj as [Hj|[? Hj]];
                    [|apply list_lookup_singleton_Some in Hj as [? E]] ];
            simplify_eq; rewrite ?elem_of_app; eauto; set_solver).
Qed.

Lemma trace_inv_run items sched tr s :
  run sched (start items) = Some (tr, s) → trace_inv tr s.
Proof.
  revert sched tr s. apply (run_ind_snoc (start items) trace_inv).
  - apply trace_inv_start.
  - intros. eapply trace_inv_step; [by eapply control_inv_run| |]; done.
Qed.

(** A run whose trace passes through an event can be cut there. *)
Lemma run_split sched s0 tr1 e tr2 s :
  run sched s0 = Some (tr1 ++ e :: tr2, s) →
  ∃ sched1 t sched2 s1 s2,
    sched = sched1 ++ t :: sched2
    ∧ run sched1 s0 = Some (tr1, s1)
    ∧ step t s1 = Some (e, s2)
    ∧ run sched2 s2 = Some (tr2, s).
Proof.
  revert sched s0. induction tr1 as [|e1 tr1 IH]; intros [|t sched] s0; simpl;
    try (by intros [= ?]).
  - destruct (step t s0) as [[e0 s1]|] eqn:E; [|done].
    destruct (run sched s1) as [[tr s2]|] eqn:E2; [|done].
    intros [= -> -> ->]. by exists [], t, sched, s0, s1.
  - destruct (step t s0) as [[e0 s1]|] eqn:E; [|done].
    destruct (run sched s1) as [[tr s2]|] eqn:E2; [|done].
    intros [= -> -> ->].
    destruct (IH _ _ E2) as (sched1 & t' & sched2 & s1' & s2' & -> & H1 & H2 & H3).
    exists (t :: sched1), t', sched2, s1', s2'. simpl. by rewrite E, H1.
Qed.

(** ** Termination: every step uses up some of a finite budget *)

Definition coord_weight (c : coord) : nat :=
  match c with
  | CLoop k => 6 + 4 * Z.to_nat (numWorkers - k)
  | CGo k => 9 + 4 * Z.to_nat (numWorkers - k - 1)
  | CFeed => 5
  | CWait => 4
  | CCloseOut => 3
  | CExit | CFatal => 0
  end.

Definition worker_weight (w : worker) : nat :=
  match w with
  | WReduce _ => 4
  | WSend _ => 3
  | WRecv => 2
  | WDefer _ => 1
  | WExit | WFatal => 0
  end.

Definition budget (s : state) : nat :=
  coord_weight (co s) + sum_list (worker_weight <$> ws s)
  + 3 * length (pending s) + b2n (negb (in_closed s)) + b2n (negb (crashed s)).

Lemma weight_insert l i w w' :
  l !! i = Some w →
  (sum_list (worker_weight <$> <[i := w']> l) + worker_weight w
   = sum_list (worker_weight <$> l) + worker_weight w')%nat.
Proof.
  revert i. induction l as [|a l IH]; intros [|i] H; try done.
  - injection H as ->. change (<[0%nat := w']> (w :: l)) with (w' :: l).
    rewrite !fmap_cons. cbn [sum_list_with id]. lia.
  - specialize (IH _ H).
    change (<[S i := w']> (a :: l)) with (a :: <[i := w']> l).
    rewrite !fmap_cons. cbn [sum_list_with id]. lia.
Qed.

Lemma budget_step t s e s' :
  step t s = Some (e, s') → (budget s' < budget s)%nat.
Proof.
  intros Hstep. pose proof (step_alive _ _ _ _ Hstep) as Hal.
  apply step_sound in Hstep. unfold budget.
  destruct Hstep;
    cbn [co wg ws pending in_closed out out_closed crashed with_co with_wg
         with_ws with_pending with_in_closed with_out with_out_closed
         with_crashed with_worker];
    try match goal with
      | H : ws s !! ?i = Some ?w |- context [<[?i := ?w']> (ws s)] =>
          pose proof (weight_insert _ _ _ w' H)
      end;
    try match goal with p : bool |- _ => destruct p end;
    repeat match goal with
      | H : co s = _ |- _ => rewrite H
      | H : pending s = _ |- _ => rewrite H
      | H : in_closed s = _ |- _ => rewrite H
      | H : crashed s = _ |- _ => rewrite H
      end;
    rewrite ?fmap_app, ?sum_list_with_app;
    cbn [coord_weight worker_weight b2n negb length fmap list_fmap
         sum_list_with id] in *;
    try lia.
  destruct src; simpl; lia.
Qed.

Lemma run_budget sched s tr s' :
  run sched s = Some (tr, s') → (length sched + budget s' ≤ budget s)%nat.
Proof.
  revert s tr. induction sched as [|t sched IH]; intros s tr; simpl.
  - intros [= <- <-]. lia.
  - destruct (step t s) as [[e s1]|] eqn:E; [|done].
    destruct (run sched s1) as [[tr1 s2]|] eqn:E2; [|done].
    intros [= <- <-]. pose proof (budget_step _ _ _ _ E).
    specialize (IH _ _ E2). lia.
Qed.

(** ** Progress: what a state that cannot move looks like *)

Lemma stuck_spec s : stuck s = true ↔ ∀ t, step t s = None.
Proof.
  unfold stuck. rewrite andb_true_iff, bool_decide_eq_true, forallb_forall.
  split.
  - intros [(Hc & Ha & Hr) Hw] [|i| |]; try done.
    destruct (decide (i < length (ws s))%nat) as [Hi|Hi].
    + specialize (Hw i). rewrite in_seq in Hw.
      destruct (step (TWorker i) s); [|done]. by specialize (Hw ltac:(lia)).
    + unfold step, step_worker. rewrite lookup_ge_None_2 by lia.
      by destruct (crashed s).
  - intros H. split; [by rewrite !H|]. intros i _. by rewrite H.
Qed.

Lemma live_count_pos l :
  live_count l ≠ 0%nat → ∃ i w, l !! i = Some w ∧ live w = true.
Proof.
  induction l as [|a l IH]; [done|]. unfold live_count in *. simpl.
  destruct (live a) eqn:E.
  - intros _. by exists 0%nat, a.
  - intros H. destruct (IH H) as (i & w & ? & ?). by exists (S i), w.
Qed.

Lemma live_count_0_Forall l :
  live_count l = 0%nat → Forall (λ w, live w = false) l.
Proof.
  intros H. apply Forall_lookup. intros i w Hw. by eapply live_count_0.
Qed.

Lemma existsb_fatal_intro l i : l !! i = Some WFatal → existsb fatal l = true.
Proof.
  revert i. induction l as [|a l IH]; intros [|i] H; try done.
  - by injection H as ->.
  - simpl. rewrite (IH _ H). by destruct (fatal a).
Qed.

(** A worker that cannot move has returned, or is blocked receiving. *)
Lemma blocked_worker s i w :
  crashed s = false → (∀ t, step t s = None) → ws s !! i = Some w →
  w = WExit
  ∨ (w = WRecv ∧ in_closed s = false
     ∧ (pending s = [] ∨ sender_ready s = false)).
Proof.
  intros Hcr Hst Hw.
  pose proof (Hst (TWorker i)) as Hi. pose proof (Hst TRuntime) as Hr.
  unfold step in Hi, Hr. rewrite Hcr in Hi, Hr.
  unfold step_worker in Hi. rewrite Hw in Hi. destruct w as [|x|v|p| |].
  - right. split; [done|]. destruct (in_closed s); [done|]. split; [done|].
    destruct (pending s); [by left|]. right. by destruct (sender_ready s).
  - destruct (reduceFunc x) as [|v]; [done|]. by destruct (is_nil v).
  - by destruct (out_closed s).
  - by destruct (wg s - 1 <? 0).
  - by left.
  - unfold step_runtime in Hr. by rewrite (existsb_fatal_intro _ _ Hw) in Hr.
Qed.

(** With at least one worker, a run that has not crashed can only stop
    when everything is done: the input is consumed and closed, every
    worker has returned and the output is closed. *)
Lemma stuck_finished s :
  control_inv s → 1 ≤ numWorkers → stuck s = true → crashed s = false →
  co s = CExit ∧ out_closed s = true ∧ in_closed s = true ∧ pending s = []
  ∧ Forall (λ w, w = WExit) (ws s).
Proof.
  intros Hc HW Hst Hcr. rewrite stuck_spec in Hst.
  pose proof (blocked_worker s) as Hb.
  pose proof (Hst TCoord) as Hco. pose proof (Hst TCaller) as Hca.
  unfold step in Hco, Hca. rewrite Hcr in Hco, Hca.
  unfold step_coord in Hco. unfold step_caller in Hca.
  destruct Hc as [Hwg Hlen Hout Hdead Hin Hpend Hret].
  destruct (co s) as [k|k| | | | |] eqn:E.
  - by destruct (k <? numWorkers).
  - done.
  - (* blocked in the callback: worker 0 would take the item *)
    destruct Hlen as [Hsrc Hlen]. specialize (Hin Hsrc). rewrite Hin in Hco.
    destruct (pending s) as [|x rest] eqn:Ep; [done|].
    destruct (ws s) as [|w l] eqn:Ews; [simpl in Hlen; lia|].
    destruct (Hb 0%nat w Hcr Hst eq_refl) as [->|(-> & _ & [?|Hs])]; try done.
    + by rewrite (Hret 0%nat WExit) in Hin.
    + unfold sender_ready in Hs. by rewrite Hsrc, E in Hs.
  - (* blocked in wg.Wait(): some worker is live, and it is receiving *)
    destruct (wg s =? 0) eqn:Ewg; [done|]. apply Z.eqb_neq in Ewg.
    destruct (live_count_pos (ws s)) as (i & w & Hw & Hl); [lia|].
    destruct (Hb i w Hcr Hst Hw) as [->|(-> & Hic & Hp)]; [done|].
    destruct src eqn:Esrc.
    + by rewrite Hin in Hic.
    + rewrite Hic in Hca. destruct Hp as [Hp|Hs]; [by rewrite Hp in Hca|].
      unfold sender_ready in Hs. by rewrite Esrc in Hs.
  - by destruct (out_closed s).
  - assert (Hall : Forall (λ w, w = WExit) (ws s)).
    { apply Forall_lookup. intros i w Hw.
      destruct (Hb i w Hcr Hst Hw) as [->|(-> & _)]; [done|].
      by pose proof (live_count_0 _ _ _ Hw Hdead). }
    assert (Hic : in_closed s = true).
    { destruct (ws s) as [|w l] eqn:Ews; [simpl in Hlen; lia|].
      inversion Hall; subst. by apply (Hret 0%nat WExit). }
    repeat split; auto.
  - done.
Qed.

Lemma stuck_false s :
  stuck s = false → ∃ t e s', step t s = Some (e, s').
Proof.
  intros H. destruct (step TCoord s) as [[e s']|] eqn:E1; [by exists TCoord, e, s'|].
  destruct (step TCaller s) as [[e s']|] eqn:E2; [by exists TCaller, e, s'|].
  destruct (step TRuntime s) as [[e s']|] eqn:E3; [by exists TRuntime, e, s'|].
  unfold stuck in H. rewrite E1, E2, E3 in H.
  rewrite bool_decide_eq_true_2 in H by done. simpl in H.
  apply not_true_iff_false in H. rewrite forallb_forall in H.
  induction (seq 0 (length (ws s))) as [|i l IH].
  - destruct H. by intros ? [].
  - destruct (step (TWorker i) s) as [[e s']|] eqn:E4; [by exists (TWorker i), e, s'|].
    apply IH. intros Hl. apply H. intros j [<-|Hj]; [by rewrite E4 | by apply Hl].
Qed.

(** From every state some schedule leads to a state that cannot move. *)
Lemma run_to_stuck s :
  ∃ sched tr s', run sched s = Some (tr, s') ∧ stuck s' = true.
Proof.
  remember (budget s) as n eqn:En. revert s En.
  induction (lt_wf n) as [n _ IH]. intros s ->.
  destruct (stuck s) eqn:Est.
  - by exists [], [], s.
  - destruct (stuck_false _ Est) as (t & e & s1 & Hstep).
    destruct (IH _ (budget_step _ _ _ _ Hstep) s1 eq_refl)
      as (sched & tr & s' & Hrun & Hst).
    exists (t :: sched), (e :: tr), s'. simpl. by rewrite Hstep, Hrun.
Qed.

(** ** Panics *)

(** The workers in which [reduceFunc] (or a channel operation) panicked. *)
Definition panics (tr : list event) : list nat :=
  omap (λ e, match e with EvPanic i => Some i | _ => None end) tr.

Lemma panics_snoc tr e :
  panics (tr ++ [e]) = panics tr ++ match e with EvPanic i => [i] | _ => [] end.
Proof. unfold panics. rewrite omap_app. by destruct e. Qed.

(** A panic is not recovered: the worker it started in never gets back
    into its loop. *)
Definition panic_inv (tr : list event) (s : state) : Prop :=
  ∀ i, i ∈ panics tr → ∃ w, ws s !! i = Some w ∧ panicky w = true.

Lemma panic_inv_step t tr s e s' :
  control_inv s → panic_inv tr s → step t s = Some (e, s') →
  panic_inv (tr ++ [e]) s'.
Proof.
  intros Hc Hp Hstep j. rewrite panics_snoc.
  step_cases Hc Hstep;
    cbn [co wg ws pending in_closed out out_closed crashed with_co with_wg
         with_ws with_pending with_in_closed with_out with_out_closed
         with_crashed with_worker];
    rewrite ?app_nil_r; try (by apply Hp).
  all: try (intros Hj; destruct (Hp _ Hj) as (w & Hw & Hpk);
            destruct (decide (i = j)) as [->|Hne];
            [ simplify_eq; try discriminate
            | exists w; split; [by rewrite list_lookup_insert_ne | done] ]; fail).
  - intros Hj. destruct (Hp _ Hj) as (w & Hw & Hpk). exists w. split; [|done].
    by apply lookup_app_l_Some.
  - rewrite elem_of_app, list_elem_of_singleton. intros [Hj| ->].
    + destruct (Hp _ Hj) as (w & Hw & Hpk).
      destruct (decide (i = j)) as [->|Hne]; [simplify_eq|].
      exists w. split; [by rewrite list_lookup_insert_ne | done].
    + exists (WDefer true). split; [|done].
      apply list_lookup_insert_eq. by eapply lookup_lt_Some.
  - intros Hj. destruct (Hp _ Hj) as (w & Hw & Hpk).
    destruct (decide (i = j)) as [->|Hne].
    + simplify_eq. destruct p; [|discriminate]. exists WFatal. split; [|done].
      apply list_lookup_insert_eq. by eapply lookup_lt_Some.
    + exists w. split; [by rewrite list_lookup_insert_ne | done].
Qed.

Lemma panic_inv_run items sched tr s :
  run sched (start items) = Some (tr, s) → panic_inv tr s.
Proof.
  revert sched tr s. apply (run_ind_snoc (start items) panic_inv).
  - intros i Hi. by apply elem_of_nil in Hi.
  - intros. eapply panic_inv_step; [by eapply control_inv_run| |]; done.
Qed.

(** ** Consequences used for the claims *)

Lemma close_step t s s' :
  step t s = Some (EvCloseOut, s') → co s = CCloseOut ∧ out_closed s = false.
Proof. intros H. apply step_sound in H. by inversion H. Qed.

Lemma held_dead l : live_count l = 0%nat → l ≫= held = [].
Proof.
  intros H. apply live_count_0_Forall in H.
  induction H as [|w l Hw _ IH]; [done|]. rewrite bind_cons, IH.
  by destruct w.
Qed.

Lemma in_flight_exit l : Forall (λ w, w = WExit) l → l ≫= in_flight = [].
Proof.
  induction 1 as [|w l -> _ IH]; [done|]. by rewrite bind_cons, IH.
Qed.

(** When [outChan] is closed, every worker has been started and has ended,
    and what the workers accepted has been delivered. *)
Lemma closed_after_workers items sched tr1 tr2 s :
  run sched (start items) = Some (tr1 ++ EvCloseOut :: tr2, s) →
  ∃ sched1 s1,
    run sched1 (start items) = Some (tr1, s1)
    ∧ Z.of_nat (length (ws s1)) = Z.max 0 numWorkers
    ∧ Forall (λ w, live w = false) (ws s1)
    ∧ (∀ i : nat, Z.of_nat i < numWorkers → i ∈ dones tr1)
    ∧ accepted tr1 ≡ₚ delivered tr1
    ∧ out s1 = delivered tr1
    ∧ closes tr1 = 0%nat.
Proof.
  intros Hrun.
  destruct (run_split _ _ _ _ _ _ Hrun)
    as (sched1 & t & sched2 & s1 & s2 & -> & H1 & Hstep & H2).
  exists sched1, s1. split; [done|].
  destruct (close_step _ _ _ Hstep) as [Hco Hopen].
  destruct (control_inv_run _ _ _ _ H1) as [_ Hlen _ Hdead _ _ _].
  destruct (trace_inv_run _ _ _ _ H1) as [Hout Hacc Hdone Hcl].
  rewrite Hco in Hlen, Hdead.
  split; [done|]. split; [by apply live_count_0_Forall|].
  split; [|split; [|split]].
  - intros i Hi. destruct (ws s1 !! i) as [w|] eqn:Hw.
    + eapply Hdone; [done|]. by eapply live_count_0.
    + apply lookup_ge_None in Hw. lia.
  - by rewrite held_dead, app_nil_r in Hacc.
  - done.
  - by rewrite Hcl, Hopen.
Qed.

(** A run that has stopped without a crash has delivered the results of
    all the items. *)
Lemma finished_out items sched tr s :
  1 ≤ numWorkers →
  run sched (start items) = Some (tr, s) →
  stuck s = true → crashed s = false →
  out_closed s = true ∧ closes tr = 1%nat ∧ out s ≡ₚ results items.
Proof.
  intros HW Hrun Hst Hcr.
  pose proof (control_inv_run _ _ _ _ Hrun) as Hc.
  destruct (stuck_finished _ Hc HW Hst Hcr) as (Hco & Hoc & Hic & Hp & Hall).
  destruct (trace_inv_run _ _ _ _ Hrun) as [_ _ _ Hcl].
  destruct (data_inv_run _ _ _ _ Hrun) as [_ _ _ _ Hcount _].
  split; [done|]. split; [by rewrite Hcl, Hoc|].
  rewrite Hcount, Hp, in_flight_exit by done. unfold results. simpl.
  by rewrite !app_nil_r.
Qed.

(** ** Further invariants of a run *)

(** The items the workers have received, in the order they were handed
    out. *)
Definition received (tr : list event) : list Item :=
  omap (λ e, match e with EvRecv _ x => Some x | _ => None end) tr.

(** How many times [reduceFunc] has returned nil. *)
Definition nils (tr : list event) : nat :=
  length (List.filter (λ e, match e with
                            | EvReduced _ _ v => is_nil v
                            | _ => false
                            end) tr).

(** A worker that holds an item, or the result for it. *)
Definition busy (w : worker) : nat :=
  match w with WReduce _ | WSend _ => 1 | _ => 0 end.

Lemma received_snoc tr e :
  received (tr ++ [e])
  = received tr ++ match e with EvRecv _ x => [x] | _ => [] end.
Proof. unfold received. rewrite omap_app. by destruct e. Qed.

Lemma nils_snoc tr e :
  nils (tr ++ [e])
  = (nils tr + match e with
               | EvReduced _ _ v => b2n (is_nil v)
               | _ => 0
               end)%nat.
Proof.
  unfold nils. rewrite List.filter_app, length_app. f_equal.
  destruct e; try done. simpl. by destruct (is_nil v).
Qed.

Lemma received_run items sched tr s :
  run sched (start items) = Some (tr, s) → received tr ++ pending s = items.
Proof.
  revert sched tr s.
  apply (run_ind_snoc (start items) (λ tr s, received tr ++ pending s = items));
    [done|].
  intros sched tr s t e s' _ IH Hstep. apply step_sound in Hstep.
  destruct Hstep; rewrite received_snoc; simpl; rewrite ?app_nil_r; try done.
  rewrite <- (assoc_L (++)). simpl. congruence.
Qed.

Lemma single_lookup {A} (l : list A) i w :
  (length l ≤ 1)%nat → l !! i = Some w → l = [w] ∧ i = 0%nat.
Proof.
  destruct l as [|a [|b l]]; simpl; [done| |lia].
  destruct i as [|i]; [|done]. by intros _ [= ->].
Qed.

(** With at most one worker the results are in the order of the items. *)
Lemma single_worker_order items sched tr s :
  run sched (start items) = Some (tr, s) →
  (length (ws s) ≤ 1)%nat →
  results items = out s ++ (ws s ≫= in_flight) ++ results (pending s).
Proof.
  revert sched tr s.
  apply (run_ind_snoc (start items)
           (λ _ s, (length (ws s) ≤ 1)%nat →
                   results items
                   = out s ++ (ws s ≫= in_flight) ++ results (pending s)));
    [done|].
  intros sched tr s t e s' Hrun IH Hstep.
  pose proof (control_inv_run _ _ _ _ Hrun) as Hc.
  step_cases Hc Hstep;
    cbn [co wg ws pending in_closed out out_closed crashed with_co with_wg
         with_ws with_pending with_in_closed with_out with_out_closed
         with_crashed with_worker];
    rewrite ?length_insert; try done.
  all: try (intros Hl; specialize (IH Hl);
    match goal with H : ws _ !! _ = Some _ |- _ =>
      destruct (single_lookup _ _ _ Hl H) as [Ews ->] end;
    rewrite Ews in IH |- *; rewrite IH;
    try match goal with H : pending _ = _ |- _ => rewrite H end;
    unfold results; rewrite ?bind_cons;
    cbn [insert list_insert mbind list_bind in_flight app];
    unfold result_of;
    repeat match goal with
      | H : reduceFunc _ = _ |- _ => rewrite H
      | H : is_nil _ = _ |- _ => rewrite H
      end;
    try match goal with p : bool |- _ => destruct p end;
    cbn [app]; rewrite ?app_nil_r; repeat rewrite <- app_assoc; done).
  rewrite length_app. simpl. intros Hl.
  destruct (ws s) as [|w l] eqn:E; [|simpl in Hl; lia].
  rewrite IH by (simpl; lia). done.
Qed.

Lemma busy_insert l i w w' :
  l !! i = Some w →
  (sum_list_with busy (<[i := w']> l) + busy w
   = sum_list_with busy l + busy w')%nat.
Proof.
  revert i. induction l as [|a l IH]; intros [|i] H; try done.
  - injection H as ->. change (<[0%nat := w']> (w :: l)) with (w' :: l).
    cbn [sum_list_with]. lia.
  - specialize (IH _ H).
    change (<[S i := w']> (a :: l)) with (a :: <[i := w']> l).
    cbn [sum_list_with]. lia.
Qed.

Lemma busy_le_length l : (sum_list_with busy l ≤ length l)%nat.
Proof.
  induction l as [|w l IH]; simpl; [done|]. destruct w; simpl; lia.
Qed.

(** Every item that has been received is with a worker, or its result has
    been delivered, or it was nil, or [reduceFunc] panicked on it. *)
Lemma received_accounted items sched tr s :
  run sched (start items) = Some (tr, s) →
  length (received tr)
  = (length (delivered tr) + nils tr + length (panics tr)
     + sum_list_with busy (ws s))%nat.
Proof.
  revert sched tr s.
  apply (run_ind_snoc (start items)
           (λ tr s, length (received tr)
                    = (length (delivered tr) + nils tr + length (panics tr)
                       + sum_list_with busy (ws s))%nat));
    [done|].
  intros sched tr s t e s' Hrun IH Hstep.
  pose proof (control_inv_run _ _ _ _ Hrun) as Hc.
  step_cases Hc Hstep;
    rewrite received_snoc, delivered_snoc, nils_snoc, panics_snoc;
    cbn [co wg ws pending in_closed out out_closed crashed with_co with_wg
         with_ws with_pending with_in_closed with_out with_out_closed
         with_crashed with_worker];
    try match goal with
      | H : ws s !! ?i = Some ?w |- context [<[?i := ?w']> (ws s)] =>
          pose proof (busy_insert _ _ _ w' H)
      end;
    try match goal with p : bool |- _ => destruct p end;
    repeat match goal with
      | H : is_nil _ = _ |- _ => rewrite H
      end;
    rewrite ?sum_list_with_app, ?length_app;
    cbn [busy b2n length sum_list_with] in *; lia.
Qed.

(** The engine's own channel and counter operations never panic. *)
Lemma coord_never_panics items sched tr s :
  run sched (start items) = Some (tr, s) → EvCoordPanic ∉ tr.
Proof.
  revert sched tr s.
  apply (run_ind_snoc (start items) (λ tr _, EvCoordPanic ∉ tr)).
  - apply not_elem_of_nil.
  - intros sched tr s t e s' Hrun IH Hstep.
    pose proof (control_inv_run _ _ _ _ Hrun) as Hc.
    rewrite not_elem_of_app. split; [done|].
    rewrite list_elem_of_singleton. by step_cases Hc Hstep.
Qed.

(** Without a worker nothing is taken from the producer. *)
Lemma no_workers_run items sched tr s :
  numWorkers ≤ 0 →
  run sched (start items) = Some (tr, s) →
  ws s = [] ∧ pending s = items ∧ out s = [] ∧ crashed s = false.
Proof.
  intros HW. revert sched tr s.
  apply (run_ind_snoc (start items)
           (λ _ s, ws s = [] ∧ pending s = items ∧ out s = []
                   ∧ crashed s = false));
    [done|].
  intros sched tr s t e s' Hrun (Hws & Hp & Ho & Hcr) Hstep.
  pose proof (control_inv_run _ _ _ _ Hrun) as Hc.
  pose proof (coord_never_fatal _ Hc) as Hnf.
  destruct Hc as [_ Hco _ _ _ _ _].
  step_cases Hc Hstep;
    cbn [co wg ws pending in_closed out out_closed crashed with_co with_wg
         with_ws with_pending with_in_closed with_out with_out_closed
         with_crashed with_worker];
    try done;
    try match goal with
      | H : ws s !! _ = Some _ |- _ => by rewrite Hws in H
      end.
  - match goal with H : co s = CGo _ |- _ => rewrite H in Hco end. lia.
  - match goal with H : _ || _ = true |- _ => rewrite Hws in H; simpl in H end.
    by destruct (co s).
Qed.

Lemma workers_bounded s :
  control_inv s → Z.of_nat (length (ws s)) ≤ Z.max 0 numWorkers.
Proof. intros [_ Hco _ _ _ _ _]. destruct (co s); lia. Qed.

(** Without a worker, [GoReduceLinesFromReader] with a line to send stays
    in its loop or in the callback. *)
Lemma no_workers_blocked items sched tr s :
  numWorkers ≤ 0 → src = FromReader → items ≠ [] →
  run sched (start items) = Some (tr, s) →
  (∃ k, co s = CLoop k) ∨ co s = CFeed.
Proof.
  intros HW Hsrc Hne. revert sched tr s.
  apply (run_ind_snoc (start items)
           (λ _ s, (∃ k, co s = CLoop k) ∨ co s = CFeed)).
  { left. by exists 0. }
  intros sched tr s t e s' Hrun IH Hstep.
  pose proof (control_inv_run _ _ _ _ Hrun) as Hc.
  destruct (no_workers_run _ _ _ _ HW Hrun) as (Hws & Hp & _ & _).
  pose proof Hc as [_ Hco _ _ _ _ _].
  step_cases Hc Hstep;
    cbn [co wg ws pending in_closed out out_closed crashed with_co with_wg
         with_ws with_pending with_in_closed with_out with_out_closed
         with_crashed with_worker];
    try done;
    try match goal with
      | H : ws _ !! _ = Some _ |- _ => by rewrite Hws in H
      | H : co _ = _ |- _ => rewrite H in IH, Hco;
          try (by destruct IH as [[? ?]|?])
      end.
  - lia.
  - rewrite Hsrc. by right.
  - congruence.
Qed.

End Model.

Arguments start {Item Res} items.
Arguments Panics {Res}.
Arguments Returns {Res} out.

(** [GoReduceLinesFromReader(r, numWorkers, reduceFunc)] under a schedule:
    the items are the lines [ProcessLinesFromReader] hands to its callback. *)
Definition GoReduceLinesFromReader {Res} (r : Lines.Reader) (numWorkers : Z)
    (reduceFunc : list byte → outcome (Res := Res)) (sched : list thread) :=
  run reduceFunc FromReader numWorkers sched (start (Lines.calls r)).

(** [GoReduce(inChan, numWorkers, reduceFunc)] under a schedule, with a
    caller who sends [items] on [inChan] and then closes it. *)
Definition GoReduce {Item Res} (items : list Item) (numWorkers : Z)
    (reduceFunc : Item → outcome (Res := Res)) (sched : list thread) :=
  run reduceFunc FromChan numWorkers sched (start items).

End Engine.

(* ================================================================== *)
(** * go/format: [Source], [Node], [parse], [hasUnsortedImports] *)
(* ================================================================== *)

Module Format.

(** [token.Pos]; [token.NoPos] is 0. *)
Definition Pos := Z.
Definition IsValid (p : Pos) : bool := negb (p =? 0).

(** The [token.Token] of a [GenDecl]. *)
Inductive Token := IMPORT | CONST | TYPE | VAR.

(** An error, by its message ([err.Error()]). *)
Definition error := list byte.

Definition isSpace (b : byte) : bool :=
  bool_decide (b = sp) || bool_decide (b = tab) || bool_decide (b = nl)
  || bool_decide (b = cr).

(** [strings.Contains]. *)
Fixpoint HasPrefix (s prefix : list byte) : bool :=
  match prefix, s with
  | [], _ => true
  | p :: prefix', b :: s' => bool_decide (b = p) && HasPrefix s' prefix'
  | _ :: _, [] => false
  end.

Fixpoint Contains (s substr : list byte) : bool :=
  HasPrefix s substr
  || match s with
     | [] => false
     | _ :: s' => Contains s' substr
     end.

(** Slice expressions [s[a:]] and [s[:b]]; [None] is the run-time panic
    for indices out of range. *)
Definition slice_from (s : list byte) (a : Z) : option (list byte) :=
  if (0 <=? a) && (a <=? Z.of_nat (length s))
  then Some (drop (Z.to_nat a) s) else None.

Definition slice_to (s : list byte) (b : Z) : option (list byte) :=
  if (0 <=? b) && (b <=? Z.of_nat (length s))
  then Some (take (Z.to_nat b) s) else None.

Definition len (s : list byte) : Z := Z.of_nat (length s).

Section Ast.
(** The parts of the syntax tree this package does not look into. *)
Context {Spec Rest Comments : Type}.

Inductive Decl :=
| GenDecl (Tok : Token) (Lparen : Pos) (Specs : list Spec)
| FuncDecl (d : Rest)
| BadDecl (d : Rest).

Record File := {
  Decls : list Decl;
  Extra : Rest
}.

Fixpoint unsorted_from (ds : list Decl) : bool :=
  match ds with
  | [] => false
  | GenDecl IMPORT Lparen _ :: ds' =>
      if IsValid Lparen then
        (* For now assume all grouped imports are unsorted. *)
        true
      else
        (* Ungrouped imports are sorted by default. *)
        unsorted_from ds'
  | _ :: _ =>
      (* Not an import declaration, so we're done. *)
      false
  end.

Definition hasUnsortedImports (file : File) : bool :=
  unsorted_from (Decls file).

(** A pointer to an [ast.File]; [None] is the nil pointer. *)
Definition ptr := option positive.

(** The dynamic type of the [node interface{}] argument of [Node]. *)
Inductive node :=
| NFile (p : ptr)                            (* *ast.File *)
| NCommented (n : node) (cs : Comments)      (* *printer.CommentedNode *)
| NOther (n : Rest).                         (* []ast.Decl, ast.Expr, ... *)

(** What the printer sees of a node: the trees behind the pointers. *)
Inductive tree :=
| TFile (f : option File)
| TCommented (n : tree) (cs : Comments)
| TOther (n : Rest).

(** The [ast.File] objects on the heap. A file and the nodes below it are
    one object: a change to any of its nodes is a change of the object,
    and the trees of different calls of the parser share no node. *)
Abbreviation heap := (gmap positive File).

Definition deref (σ : heap) (p : ptr) : option File :=
  match p with
  | None => None
  | Some l => σ !! l
  end.

Fixpoint resolve (σ : heap) (n : node) : tree :=
  match n with
  | NFile p => TFile (deref σ p)
  | NCommented n' cs => TCommented (resolve σ n') cs
  | NOther o => TOther o
  end.

Section Format.
(** The packages this one is built on. [ParseFile] is
    [parser.ParseFile(fset, filename, src, parserMode)]: it registers the
    file with [fset] and returns a new tree or an error. [Fprint] is
    [cfg.Fprint(&buf, fset, node)] for [config] with the given [Indent]: the
    bytes written and the error; it reads the tree and changes nothing.
    [SortImports] is the change [ast.SortImports(fset, f)] makes to the
    file object [f]. [TrimSpace] is [bytes.TrimSpace]. *)
Context {FileSet : Type}.
Context (NewFileSet : FileSet)
        (ParseFile : FileSet → list byte → list byte → FileSet * (File + error))
        (Fprint : Z → FileSet → tree → list byte * option error)
        (SortImports : FileSet → File → File)
        (TrimSpace : list byte → list byte).

(** The [adjust] closures of [parse]. *)
Definition adjust_decls (src : list byte) (indent : Z) : option (list byte) :=
  (* Remove the package clause. Gofmt has turned the ; into a \n. *)
  src ← slice_from src (indent + len (B "package p" ++ [nl]));
  Some (TrimSpace src).

Definition adjust_stmts (src : list byte) (indent : Z) : option (list byte) :=
  (* Cap adjusted indent to zero. *)
  let indent := if indent <? 0 then 0 else indent in
  (* Remove the wrapping. Gofmt has turned the ; into a \n\n. *)
  src ← slice_from src
          (2 * indent + len (B "package p" ++ [nl; nl] ++ B "func _() {"));
  src ← slice_to src (len src - (indent + len ([nl] ++ B "}" ++ [nl])));
  Some (TrimSpace src).

(** The results [(file, adjust, adjustIndent, err)] of [parse]. *)
Inductive parsed :=
| Parsed (file : File) (adjust : option (list byte → Z → option (list byte)))
         (adjustIndent : Z)
| ParseError (err : error).

Definition parse (fset : FileSet) (filename src : list byte) (stdin : bool)
  : FileSet * parsed :=
  (* Try as whole source file. *)
  match ParseFile fset filename src with
  | (fset, inl file) => (fset, Parsed file None 0)
  | (fset, inr err) =>
      if negb stdin || negb (Contains err (B "expected 'package'"))
      then (fset, ParseError err)
      else
        (* If this is a declaration list, make it a source file by
           inserting a package clause. *)
        let psrc := B "package p;" ++ src in
        match ParseFile fset filename psrc with
        | (fset, inl file) => (fset, Parsed file (Some adjust_decls) 0)
        | (fset, inr err) =>
            if negb (Contains err (B "expected declaration"))
            then (fset, ParseError err)
            else
              (* If this is a statement list, make it a source file by
                 inserting a package clause and turning the list into a
                 function body. *)
              let fsrc := (B "package p; func _() {" ++ src) ++ [nl] ++ B "}" in
              match ParseFile fset filename fsrc with
              | (fset, inl file) =>
                  (* Gofmt has also indented the function body one level. *)
                  (fset, Parsed file (Some adjust_stmts) (-1))
              | (fset, inr err) =>
                  (* Failed, and out of options. *)
                  (fset, ParseError err)
              end
        end
  end.

(** The first loop of [Source]: [i] is the byte offset of the last line in
    the leading space, [j] the offset of the first byte that is no space;
    [bs] is [src[j:]]. *)
Fixpoint leading (bs : list byte) (i j : nat) : nat * nat :=
  match bs with
  | b :: bs' =>
      if isSpace b
      then leading bs' (if bool_decide (b = nl) then S j else i) (S j)
      else (i, j)
  | [] => (i, j)
  end.

(** The second loop: the tabs of [src[i:j]], and whether it has a space. *)
Definition count_indent (bs : list byte) : Z * bool :=
  foldl (λ '(indent, hasSpace) b,
           if bool_decide (b = sp) then (indent, true)
           else if bool_decide (b = tab) then (indent + 1, hasSpace)
           else (indent, hasSpace))
        (0, false) bs.

(** The last loop, from [i] downwards: the offset where the trailing space
    starts. *)
Fixpoint trailing (src : list byte) (i : nat) : nat :=
  match i with
  | O => O
  | S i' =>
      match src !! i' with
      | Some b => if isSpace b then trailing src i' else i
      | None => i
      end
  end.

(** What a call returns, or that it panicked. *)
Inductive result (A : Type) :=
| Ok (a : A)
| Err (err : error)
| Panic.
Arguments Ok {A} a.
Arguments Err {A} err.
Arguments Panic {A}.

Definition Source (src : list byte) : result (list byte) :=
  let fset := NewFileSet in
  match parse fset [] src true with
  | (_, ParseError err) => Err err
  | (fset, Parsed file None _) =>
      (* Complete source file. *)
      let file := SortImports fset file in
      match Fprint 0 fset (TFile (Some file)) with
      | (_, Some err) => Err err
      | (buf, None) => Ok buf
      end
  | (fset, Parsed file (Some adjust) adjustIndent) =>
      (* Partial source file. Determine and prepend leading space. *)
      let '(i, j) := leading src 0 0 in
      let res := take i src in
      (* Determine and prepend indentation of first code line. *)
      let '(indent, hasSpace) := count_indent (drop i (take j src)) in
      let indent := if (indent =? 0) && hasSpace then 1 else indent in
      let res := res ++ replicate (Z.to_nat indent) tab in
      (* Format the source. *)
      match Fprint (indent + adjustIndent) fset (TFile (Some file)) with
      | (_, Some err) => Err err
      | (buf, None) =>
          match adjust buf (indent + adjustIndent) with
          | None => Panic
          | Some body =>
              let res := res ++ body in
              (* Determine and append trailing space. *)
              let i := trailing src (length src) in
              Ok (res ++ drop i src)
          end
      end
  end.

(** [Node], on the heap [σ] of file objects; [dst] is what has been
    written to the writer. It returns the heap, the file set and the writer
    after the call, and the error. *)
Definition Node (dst : list byte) (fset : FileSet) (n : node) (σ : heap)
  : heap * FileSet * list byte * option error :=
  (* Determine if we have a complete source file (file != nil). *)
  let '(file, cnode) :=
    match n with
    | NFile p => (p, None)
    | NCommented (NFile p) cs => (p, Some cs)
    | _ => (None, None)
    end in
  let unsorted :=
    match deref σ file with
    | Some f => hasUnsortedImports f
    | None => false
    end in
  if unsorted then
    (* Make a copy of the AST because ast.SortImports is destructive. *)
    match Fprint 0 fset (TFile (deref σ file)) with
    | (_, Some err) => (σ, fset, dst, Some err)
    | (buf, None) =>
        match ParseFile fset [] buf with
        | (fset, inr err) =>
            (σ, fset, dst,
             Some (B "format.Node internal error (" ++ err ++ B ")"))
        | (fset, inl parsed) =>
            let l := fresh (dom σ) in
            let σ := <[l := parsed]> σ in
            let σ := <[l := SortImports fset parsed]> σ in
            (* Use new file with sorted imports. *)
            let n := match cnode with
                     | None => NFile (Some l)
                     | Some cs => NCommented (NFile (Some l)) cs
                     end in
            let '(out, err) := Fprint 0 fset (resolve σ n) in
            (σ, fset, dst ++ out, err)
        end
    end
  else
    let '(out, err) := Fprint 0 fset (resolve σ n) in
    (σ, fset, dst ++ out, err).

End Format.
End Ast.

Arguments Ok {A} a.
Arguments Err {A} err.
Arguments Panic {A}.

(** ** Specification side: the white space around a text *)

(** The longest prefix of [l] that is white space. *)
Fixpoint leading_space (l : list byte) : list byte :=
  match l with
  | b :: l' => if isSpace b then b :: leading_space l' else []
  | [] => []
  end.

(** The longest suffix of [l] that is white space. *)
Definition trailing_space (l : list byte) : list byte :=
  reverse (leading_space (reverse l)).

(** The part of [l] up to and including its last newline. *)
Fixpoint through_last_nl (l : list byte) : list byte :=
  match l with
  | [] => []
  | b :: l' =>
      match through_last_nl l' with
      | [] => if bool_decide (b = nl) then [b] else []
      | r => b :: r
      end
  end.

(** The white space in front of the first code line of [src]: the blank
    lines, and the indentation of the code line itself. *)
Definition blank_lines (src : list byte) : list byte :=
  through_last_nl (leading_space src).

Definition first_indent (src : list byte) : list byte :=
  drop (length (blank_lines src)) (leading_space src).

(** The amount of an indentation: its tabs; spaces count only when there
    is no tab, and then as one tab. *)
Definition indent_amount (ind : list byte) : Z :=
  let tabs := Z.of_nat (length (List.filter (λ b, bool_decide (b = tab)) ind)) in
  if (tabs =? 0) && existsb (λ b, bool_decide (b = sp)) ind then 1 else tabs.

(** ** The loops of [Source] compute these *)

Lemma leading_space_prefix l : ∃ k, l = leading_space l ++ k.
Proof.
  induction l as [|b l [k IH]]; simpl; [by exists []|].
  destruct (isSpace b); [|by eexists]. exists k. simpl. by f_equal.
Qed.

Lemma leading_space_Forall l : Forall (λ b, isSpace b = true) (leading_space l).
Proof.
  induction l as [|b l IH]; simpl; [constructor|].
  destruct (isSpace b) eqn:E; by constructor.
Qed.

Lemma leading_space_app_stop a b c :
  Forall (λ x, isSpace x = true) a → isSpace b = false →
  leading_space (a ++ b :: c) = a.
Proof.
  induction 1 as [|x a Hx Ha IH]; intros Hb; simpl.
  - by rewrite Hb.
  - rewrite Hx. by rewrite IH.
Qed.

Lemma leading_space_all a :
  Forall (λ x, isSpace x = true) a → leading_space a = a.
Proof.
  induction 1 as [|x a Hx Ha IH]; simpl; [done|]. by rewrite Hx, IH.
Qed.

Lemma through_last_nl_snoc l b :
  through_last_nl (l ++ [b])
  = if bool_decide (b = nl) then l ++ [b] else through_last_nl l.
Proof.
  induction l as [|a l IH]; simpl.
  - by destruct (bool_decide (b = nl)).
  - rewrite IH. destruct (bool_decide (b = nl)) eqn:E.
    + by destruct l.
    + done.
Qed.

Lemma through_last_nl_prefix l : ∃ k, l = through_last_nl l ++ k.
Proof.
  induction l as [|b l [k IH]]; simpl; [by exists []|].
  destruct (through_last_nl l) as [|c r] eqn:E.
  - destruct (bool_decide (b = nl)); [exists l | exists (b :: l)]; done.
  - exists k. simpl. by f_equal.
Qed.

(** The first loop: [i] and [j] are the lengths of the blank lines and of
    the leading space. *)
Lemma leading_spec pre bs :
  Forall (λ b, isSpace b = true) pre →
  leading bs (length (through_last_nl pre)) (length pre)
  = (length (through_last_nl (pre ++ leading_space bs)),
     length (pre ++ leading_space bs)).
Proof.
  revert pre. induction bs as [|b bs IH]; intros pre Hpre; simpl.
  - by rewrite app_nil_r.
  - destruct (isSpace b) eqn:Eb; [|by rewrite app_nil_r].
    specialize (IH (pre ++ [b])). rewrite through_last_nl_snoc in IH.
    rewrite length_app in IH. simpl in IH.
    rewrite <- (assoc_L (++)) in IH. simpl in IH.
    rewrite <- IH.
    + replace (length pre + 1)%nat with (S (length pre)) by lia.
      destruct (bool_decide (b = nl)); [|done].
      rewrite length_app. simpl.
      by replace (length pre + 1)%nat with (S (length pre)) by lia.
    + apply Forall_app. split; [done|]. by constructor.
Qed.

Lemma leading_start src :
  leading src 0 0
  = (length (blank_lines src), length (leading_space src)).
Proof. apply (leading_spec [] src). constructor. Qed.

Lemma count_indent_spec ind :
  let '(indent, hasSpace) := count_indent ind in
  (if (indent =? 0) && hasSpace then 1 else indent) = indent_amount ind.
Proof.
  unfold count_indent, indent_amount.
  assert (G : ∀ n h,
    foldl (λ '(indent, hasSpace) b,
             if bool_decide (b = sp) then (indent, true)
             else if bool_decide (b = tab) then (indent + 1, hasSpace)
             else (indent, hasSpace)) (n, h) ind
    = (n + Z.of_nat (length (List.filter (λ b, bool_decide (b = tab)) ind)),
       h || existsb (λ b, bool_decide (b = sp)) ind)).
  { induction ind as [|b ind IH]; intros n h; simpl.
    - f_equal; [lia | by rewrite orb_false_r].
    - destruct (bool_decide (b = sp)) eqn:Es.
      + apply bool_decide_eq_true in Es as ->. rewrite IH. simpl.
        f_equal. by rewrite orb_true_r.
      + destruct (bool_decide (b = tab)) eqn:Et; rewrite IH; simpl;
          f_equal; lia. }
  rewrite G. simpl. done.
Qed.

(** The last loop: the trailing space starts [length (trailing_space src)]
    bytes before the end. *)
Lemma trailing_spec src n :
  (n ≤ length src)%nat →
  trailing src n = (n - length (leading_space (reverse (take n src))))%nat.
Proof.
  induction n as [|n IH]; intros Hn; simpl; [done|].
  destruct (src !! n) as [b|] eqn:E.
  - rewrite (take_S_r _ _ _ E), reverse_snoc. simpl.
    destruct (isSpace b); simpl; [|lia]. rewrite IH by lia. lia.
  - apply lookup_ge_None in E. lia.
Qed.

Lemma trailing_drop src :
  drop (trailing src (length src)) src = trailing_space src.
Proof.
  rewrite trailing_spec by done. rewrite firstn_all. unfold trailing_space.
  destruct (leading_space_prefix (reverse src)) as [k Hk].
  remember (leading_space (reverse src)) as ws eqn:Ews. clear Ews.
  apply (f_equal reverse) in Hk. rewrite reverse_involutive, reverse_app in Hk.
  subst src. rewrite length_app.
  replace (length (reverse k) + length (reverse ws) - length ws)%nat
    with (length (reverse k)) by (rewrite !length_reverse; lia).
  by rewrite drop_app_length.
Qed.

Lemma take_leading_space src :
  take (length (leading_space src)) src = leading_space src.
Proof.
  destruct (leading_space_prefix src) as [k Hk]. rewrite Hk at 2.
  by rewrite take_app_length.
Qed.

Lemma take_blank_lines src :
  take (length (blank_lines src)) src = blank_lines src.
Proof.
  unfold blank_lines.
  destruct (leading_space_prefix src) as [k Hk].
  destruct (through_last_nl_prefix (leading_space src)) as [k' Hk'].
  rewrite Hk at 2. rewrite Hk' at 2. rewrite <- (assoc_L (++)).
  by rewrite take_app_length.
Qed.

Lemma leading_space_split src :
  leading_space src = blank_lines src ++ first_indent src.
Proof.
  unfold first_indent, blank_lines.
  destruct (through_last_nl_prefix (leading_space src)) as [k Hk].
  rewrite Hk at 1. f_equal. rewrite Hk at 2. by rewrite drop_app_length.
Qed.

Lemma blank_lines_Forall src :
  Forall (λ b, isSpace b = true) (blank_lines src).
Proof.
  pose proof (leading_space_Forall src) as H.
  rewrite leading_space_split in H. by apply Forall_app in H as [? _].
Qed.

Lemma trailing_space_Forall l :
  Forall (λ b, isSpace b = true) (trailing_space l).
Proof. unfold trailing_space. apply Forall_reverse, leading_space_Forall. Qed.

Lemma leading_space_nil_head body :
  body ≠ [] → leading_space body = [] →
  ∃ c k, body = c :: k ∧ isSpace c = false.
Proof.
  destruct body as [|c k]; [done|]. simpl. intros _.
  destruct (isSpace c) eqn:E; [done|]. by exists c, k.
Qed.

(** White space put around a text that has none at its ends is the white
    space of the whole. *)
Lemma leading_space_wrap a body t :
  Forall (λ b, isSpace b = true) a → body ≠ [] → leading_space body = [] →
  leading_space (a ++ body ++ t) = a.
Proof.
  intros Ha Hne Hb. destruct (leading_space_nil_head _ Hne Hb) as (c & k & -> & Hc).
  simpl. by apply leading_space_app_stop.
Qed.

Lemma trailing_space_wrap a body t :
  Forall (λ b, isSpace b = true) t → body ≠ [] → trailing_space body = [] →
  trailing_space (a ++ body ++ t) = t.
Proof.
  intros Ht Hne Hb. unfold trailing_space in *.
  rewrite !reverse_app, <- (assoc_L (++)).
  rewrite leading_space_wrap.
  - apply reverse_involutive.
  - by apply Forall_reverse.
  - intros E. apply Hne. by rewrite <- (reverse_involutive body), E.
  - rewrite <- (reverse_involutive (leading_space _)), Hb. done.
Qed.

Section Facts.
Context {Spec Rest Comments FileSet : Type}.
Context (NewFileSet : FileSet)
        (ParseFile : FileSet → list byte → list byte
                     → FileSet * (@File Spec Rest + error))
        (Fprint : Z → FileSet → @tree Spec Rest Comments
                  → list byte * option error)
        (SortImports : FileSet → @File Spec Rest → @File Spec Rest)
        (TrimSpace : list byte → list byte).

(** The [adjust] that [parse] returns is one of its two closures, and
    [adjustIndent] goes with it. *)
Lemma parse_adjust fset filename src stdin fset' file adjust adjustIndent :
  parse ParseFile TrimSpace fset filename src stdin
  = (fset', Parsed file (Some adjust) adjustIndent) →
  (adjust = adjust_decls TrimSpace ∧ adjustIndent = 0)
  ∨ (adjust = adjust_stmts TrimSpace ∧ adjustIndent = -1).
Proof.
  unfold parse. repeat case_match; intros [= <- <- <- <-]; auto.
Qed.

Lemma adjust_decls_trimmed buf n body :
  adjust_decls TrimSpace buf n = Some body → ∃ t, body = TrimSpace t.
Proof.
  unfold adjust_decls. destruct (slice_from _ _) as [t|]; simpl; [|done].
  intros [= <-]. by exists t.
Qed.

Lemma adjust_stmts_trimmed buf n body :
  adjust_stmts TrimSpace buf n = Some body → ∃ t, body = TrimSpace t.
Proof.
  unfold adjust_stmts. destruct (slice_from _ _) as [t|]; simpl; [|done].
  destruct (slice_to _ _) as [t'|]; simpl; [|done].
  intros [= <-]. by exists t'.
Qed.

(** [Source] on a partial source file, with its loops replaced by what
    they compute. *)
Lemma Source_partial_eq src fset' file adjust adjustIndent :
  parse ParseFile TrimSpace NewFileSet [] src true
  = (fset', Parsed file (Some adjust) adjustIndent) →
  Source NewFileSet ParseFile Fprint SortImports TrimSpace src
  = let n := indent_amount (first_indent src) in
    match Fprint (n + adjustIndent) fset' (TFile (Some file)) with
    | (_, Some err) => Err err
    | (buf, None) =>
        match adjust buf (n + adjustIndent) with
        | None => Panic
        | Some body =>
            Ok (((blank_lines src ++ replicate (Z.to_nat n) tab) ++ body)
                ++ trailing_space src)
        end
    end.
Proof.
  intros Hp. unfold Source. rewrite Hp, leading_start.
  rewrite take_blank_lines, take_leading_space. fold (first_indent src).
  pose proof (count_indent_spec (first_indent src)) as Hc.
  destruct (count_indent (first_indent src)) as [indent hasSpace].
  rewrite Hc. cbn zeta. rewrite trailing_drop. done.
Qed.

End Facts.

(** ** More on the pieces of [Source] and [Node] *)

(** An import declaration that is not grouped (no parenthesis). *)
Definition ungrouped_import {Spec Rest : Type} (d : @Decl Spec Rest) : bool :=
  match d with
  | GenDecl IMPORT Lparen _ => negb (IsValid Lparen)
  | _ => false
  end.


(** What the printer writes for the file [parse] makes of a declaration
    list or of a statement list, at an indentation of [m] tabs: the
    package clause, for statements the function header and the closing
    brace, around the text [body] of the fragment. *)
Definition decls_printed (m : nat) (body : list byte) : list byte :=
  replicate m tab ++ B "package p" ++ [nl] ++ body.

Definition stmts_printed (m : nat) (body : list byte) : list byte :=
  replicate m tab ++ B "package p" ++ [nl; nl]
  ++ replicate m tab ++ B "func _() {" ++ body
  ++ [nl] ++ replicate m tab ++ B "}" ++ [nl].

Lemma unsorted_from_spec {Spec Rest : Type} (ds : list (@Decl Spec Rest)) :
  unsorted_from ds = true
  ↔ ∃ pre Lparen Specs rest,
      ds = pre ++ GenDecl IMPORT Lparen Specs :: rest
      ∧ IsValid Lparen = true
      ∧ Forall (λ d, ungrouped_import d = true) pre.
Proof.
  split.
  - induction ds as [|d ds IH]; [done|]. simpl.
    destruct d as [[| | |] lp specs|r|r]; try done.
    destruct (IsValid lp) eqn:E.
    + intros _. exists [], lp, specs, ds. by repeat split.
    + intros H. destruct (IH H) as (pre & lp' & specs' & rest & -> & Hv & Hpre).
      exists (GenDecl IMPORT lp specs :: pre), lp', specs', rest.
      repeat split; [done|]. constructor; [|done]. simpl. by rewrite E.
  - intros (pre & lp & specs & rest & -> & Hv & Hpre).
    induction Hpre as [|d pre Hd _ IH]; simpl; [by rewrite Hv|].
    destruct d as [[| | |] lp' specs'|r|r]; try done.
    simpl in Hd. by destruct (IsValid lp').
Qed.

Lemma through_last_nl_spec l :
  ∃ k, l = through_last_nl l ++ k ∧ (nl ∉ k)
       ∧ (through_last_nl l = [] ∨ ∃ p, through_last_nl l = p ++ [nl]).
Proof.
  induction l as [|b l (k & Hl & Hk & Hend)]; simpl.
  - exists []. split; [done|]. split; [apply not_elem_of_nil | by left].
  - destruct (through_last_nl l) as [|c r] eqn:E.
    + simpl in Hl. subst k. destruct (bool_decide (b = nl)) eqn:Eb.
      * apply bool_decide_eq_true in Eb as ->. exists l.
        split; [done|]. split; [done|]. right. by exists [].
      * apply bool_decide_eq_false in Eb. exists (b :: l).
        split; [done|]. split; [|by left].
        rewrite not_elem_of_cons. split; [congruence | done].
    + exists k. split; [simpl; by f_equal|]. split; [done|].
      right. destruct Hend as [?|[p Hp]]; [done|]. exists (b :: p).
      simpl. by f_equal.
Qed.

Lemma through_last_nl_nonempty l : nl ∈ l → through_last_nl l ≠ [].
Proof.
  destruct (through_last_nl_spec l) as (k & Hl & Hk & _).
  intros Hin E. rewrite E in Hl. simpl in Hl. by subst.
Qed.

Lemma indent_amount_nonneg ind : 0 ≤ indent_amount ind.
Proof. unfold indent_amount. case_match; lia. Qed.

Lemma slice_from_app a b :
  slice_from (a ++ b) (Z.of_nat (length a)) = Some b.
Proof.
  unfold slice_from. rewrite length_app.
  destruct (Z.leb_spec 0 (Z.of_nat (length a))); [|lia].
  destruct (Z.leb_spec (Z.of_nat (length a))
              (Z.of_nat (length a + length b))); [|lia].
  simpl. by rewrite Nat2Z.id, drop_app_length.
Qed.

Lemma slice_to_app a b :
  slice_to (a ++ b) (len (a ++ b) - Z.of_nat (length b)) = Some a.
Proof.
  unfold slice_to, len. rewrite length_app.
  replace (Z.of_nat (length a + length b) - Z.of_nat (length b))
    with (Z.of_nat (length a)) by lia.
  destruct (Z.leb_spec 0 (Z.of_nat (length a))); [|lia].
  destruct (Z.leb_spec (Z.of_nat (length a))
              (Z.of_nat (length a + length b))); [|lia].
  simpl. by rewrite Nat2Z.id, take_app_length.
Qed.

Lemma adjust_decls_printed (TrimSpace : list byte → list byte)
    (m : nat) (body : list byte) :
  adjust_decls TrimSpace (decls_printed m body) (Z.of_nat m)
  = Some (TrimSpace body).
Proof.
  unfold adjust_decls, decls_printed.
  rewrite !(assoc_L (++)).
  set (pre := (replicate m tab ++ B "package p") ++ [nl]).
  replace (Z.of_nat m + len (B "package p" ++ [nl]))
    with (Z.of_nat (length pre)).
  - by rewrite (slice_from_app pre body).
  - unfold pre, len. rewrite !length_app, length_replicate. simpl. lia.
Qed.

Lemma adjust_stmts_printed (TrimSpace : list byte → list byte)
    (indent : Z) (body : list byte) :
  adjust_stmts TrimSpace (stmts_printed (Z.to_nat indent) body) indent
  = Some (TrimSpace body).
Proof.
  unfold adjust_stmts, stmts_printed.
  set (i := if indent <? 0 then 0 else indent).
  assert (Hi : Z.of_nat (Z.to_nat indent) = i).
  { unfold i. destruct (Z.ltb_spec indent 0); lia. }
  set (m' := Z.to_nat indent) in *.
  set (pre := replicate m' tab ++ B "package p" ++ [nl; nl]
              ++ replicate m' tab ++ B "func _() {").
  set (post := [nl] ++ replicate m' tab ++ B "}" ++ [nl]).
  assert (E : replicate m' tab ++ B "package p" ++ [nl; nl]
              ++ replicate m' tab ++ B "func _() {" ++ body ++ post
              = pre ++ (body ++ post)).
  { unfold pre. by rewrite <- !(assoc_L (++)). }
  rewrite E. clear E.
  replace (2 * i + len (B "package p" ++ [nl; nl] ++ B "func _() {"))
    with (Z.of_nat (length pre)).
  - rewrite (slice_from_app pre (body ++ post)).
    cbn [mbind option_bind].
    replace (i + len ([nl] ++ B "}" ++ [nl]))
      with (Z.of_nat (length post)).
    + by rewrite (slice_to_app body post).
    + unfold post, len. rewrite !length_app, length_replicate.
      simpl. lia.
  - unfold pre, len. rewrite !length_app, !length_replicate.
    simpl. lia.
Qed.

Lemma all_space_trailing src :
  Forall (λ b, isSpace b = true) src → trailing_space src = src.
Proof.
  intros H. unfold trailing_space.
  rewrite leading_space_all by by apply Forall_reverse.
  apply reverse_involutive.
Qed.

End Format.

(* ================================================================== *)
(** * Properties of the segmenter *)
(* ================================================================== *)

(** C5. For every byte stream, [ProcessLinesFromReader] invokes the
    callback exactly once per delimiter-terminated line, with the trailing
    newline stripped, in stream order: the stream is a sequence [ls] of
    newline-terminated lines followed by a remainder without newline, and
    the callback is invoked on the lines of [ls], one after the other. *)
Theorem callback_once_per_terminated_line (data : list byte) (e : Lines.error) :
  ∃ ls t,
    data = Lines.terminated ls ++ t
    ∧ Forall (λ l, nl ∉ l) ls ∧ (nl ∉ t)
    ∧ Lines.calls {| Lines.unread := data; Lines.fails := e |} = ls
    ∧ ∀ (St : Type) (processFunc : list byte → St → St) (s : St),
        Lines.ProcessLinesFromReader processFunc
          {| Lines.unread := data; Lines.fails := e |} s
        = foldl (λ acc l, processFunc l acc) s ls.
Proof.
  pose proof (Lines.segments_spec data) as H.
  destruct (Lines.segments data) as [ls t]. destruct H as (-> & Hls & Ht).
  exists ls, t. repeat split; try done.
  - by apply Lines.calls_terminated.
  - intros St f s. by apply Lines.lines_loop_terminated.
Qed.

(** C6. When the final line of the stream is not terminated by a newline,
    it is not delivered to the callback: only the terminated lines before
    it are. *)
Theorem unterminated_final_line_not_delivered
    (ls : list (list byte)) (t : list byte) (e : Lines.error) :
  Forall (λ l, nl ∉ l) ls → nl ∉ t → t ≠ [] →
  Lines.calls {| Lines.unread := Lines.terminated ls ++ t; Lines.fails := e |} = ls
  ∧ Lines.calls {| Lines.unread := Lines.terminated ls ++ t; Lines.fails := e |}
    ≠ ls ++ [t].
Proof.
  intros Hls Ht _. rewrite Lines.calls_terminated by done. split; [done|].
  intros H. apply (f_equal length) in H. rewrite length_app in H. simpl in H. lia.
Qed.

Lemma unterminated_final_line_witness :
  Forall (λ l, nl ∉ l) [B "ab"; []] ∧ (nl ∉ B "c") ∧ B "c" ≠ []
  ∧ Lines.calls {| Lines.unread := Lines.terminated [B "ab"; []] ++ B "c";
                   Lines.fails := Lines.EOF |} = [B "ab"; []]
  ∧ Lines.calls {| Lines.unread := Lines.terminated [B "ab"; []] ++ B "c";
                   Lines.fails := Lines.EOF |} ≠ [B "ab"; []] ++ [B "c"].
Proof.
  assert (H1 : Forall (λ l, nl ∉ l) [B "ab"; []]) by compute_done.
  assert (H2 : nl ∉ B "c") by compute_done.
  assert (H3 : B "c" ≠ []) by done.
  split; [done|]. split; [done|]. split; [done|].
  exact (unterminated_final_line_not_delivered _ _ Lines.EOF H1 H2 H3).
Defined.

(** C7. [ProcessLinesFromReader] stops at the end of the stream or at the
    first read error and treats both alike: whatever the error the reads
    end with, the callback sees the same lines, and nothing else is
    returned to the caller. *)
Theorem read_error_same_as_end_of_stream
    (data : list byte) (e : Lines.error)
    (St : Type) (processFunc : list byte → St → St) (s : St) :
  Lines.ProcessLinesFromReader processFunc
    {| Lines.unread := data; Lines.fails := e |} s
  = Lines.ProcessLinesFromReader processFunc
      {| Lines.unread := data; Lines.fails := Lines.EOF |} s.
Proof.
  pose proof (Lines.segments_spec data) as H.
  destruct (Lines.segments data) as [ls t]. destruct H as (-> & Hls & Ht).
  unfold Lines.ProcessLinesFromReader.
  by rewrite !Lines.lines_loop_terminated.
Qed.

(* ================================================================== *)
(** * Properties of the engine *)
(* ================================================================== *)

Import Engine.

(** The scenario of the specification: items "a", "bb", "ccc", and a
    reducer that returns the length of an item longer than one byte and
    nil otherwise. *)
Definition scenario_items : list (list byte) := [B "a"; B "bb"; B "ccc"].

Definition scenario_reduce (item : list byte) : outcome (Res := nat) :=
  if bool_decide (1 < length item)%nat
  then Returns (Some (length item)) else Returns None.

(** One worker takes the items in turn. *)
Definition schedule_one_worker : list thread :=
  [TCoord; TCoord; TCoord;
   TWorker 0; TWorker 0;
   TWorker 0; TWorker 0; TWorker 0;
   TWorker 0; TWorker 0; TWorker 0;
   TCaller; TWorker 0; TWorker 0; TCoord; TCoord].

(** Two workers; the second result to be computed arrives first. *)
Definition schedule_two_workers : list thread :=
  [TCoord; TCoord; TCoord; TCoord; TCoord;
   TWorker 0; TWorker 1; TWorker 1; TWorker 0;
   TWorker 0; TWorker 0; TWorker 0; TWorker 1;
   TCaller; TWorker 0; TWorker 1; TWorker 0; TWorker 1; TCoord; TCoord].

Example one_worker_output :
  (λ r, out (snd r)) <$> GoReduce scenario_items 1 scenario_reduce schedule_one_worker
  = Some [Some 2%nat; Some 3%nat].
Proof. reflexivity. Qed.

Example two_workers_output :
  (λ r, out (snd r)) <$> GoReduce scenario_items 2 scenario_reduce schedule_two_workers
  = Some [Some 3%nat; Some 2%nat].
Proof. reflexivity. Qed.

(** C1. In every run of the engine (either entry point), [outChan] is
    closed at most once, and only after all [numWorkers] workers have been
    started and have ended, with every non-nil result a worker accepted
    already delivered; every run is finite, and with at least one worker a
    run that has come to its end without a crash has closed [outChan]
    exactly once. *)
Theorem output_closed_once {Item Res : Type}
    (reduceFunc : Item → outcome (Res := Res)) (src : source)
    (numWorkers : Z) (items : list Item)
    (sched : list thread) (tr : list event) (s : state) :
  run reduceFunc src numWorkers sched (start items) = Some (tr, s) →
  (closes tr ≤ 1)%nat
  ∧ (∀ tr1 tr2, tr = tr1 ++ EvCloseOut :: tr2 →
       (∀ i : nat, Z.of_nat i < numWorkers → i ∈ dones tr1)
       ∧ accepted tr1 ≡ₚ delivered tr1
       ∧ closes tr1 = 0%nat
       ∧ ∃ sched1 s1,
           run reduceFunc src numWorkers sched1 (start items) = Some (tr1, s1)
           ∧ Z.of_nat (length (ws s1)) = Z.max 0 numWorkers
           ∧ Forall (λ w, live w = false) (ws s1)
           ∧ out s1 = delivered tr1)
  ∧ (length tr ≤ budget numWorkers (start (Res := Res) items))%nat
  ∧ (1 ≤ numWorkers → stuck reduceFunc src numWorkers s = true →
     crashed s = false →
     out_closed s = true ∧ closes tr = 1%nat).
Proof.
  intros Hrun. split; [|split; [|split]].
  - destruct (trace_inv_run _ _ _ _ _ _ _ Hrun) as [_ _ _ ->].
    destruct (out_closed s); simpl; lia.
  - intros tr1 tr2 ->.
    destruct (closed_after_workers _ _ _ _ _ _ _ _ Hrun)
      as (sched1 & s1 & H1 & Hlen & Hdead & Hdone & Hacc & Hout & Hcl).
    repeat split; try done. by exists sched1, s1.
  - pose proof (run_budget _ _ _ _ _ _ _ Hrun).
    rewrite (run_length _ _ _ _ _ _ _ Hrun). lia.
  - intros HW Hst Hcr.
    destruct (finished_out _ _ _ _ _ _ _ HW Hrun Hst Hcr) as (? & ? & _).
    done.
Qed.

Lemma output_closed_once_witness :
  ∃ tr s,
    run scenario_reduce FromChan 1 schedule_one_worker (start scenario_items)
    = Some (tr, s)
    ∧ 1 ≤ 1 ∧ stuck scenario_reduce FromChan 1 s = true ∧ crashed s = false
    ∧ out_closed s = true ∧ closes tr = 1%nat.
Proof.
  eexists _, _. split; [reflexivity|].
  split; [lia|]. split; [reflexivity|]. split; [reflexivity|].
  refine (proj2 (proj2 (proj2
    (output_closed_once scenario_reduce FromChan 1 scenario_items
       schedule_one_worker _ _ eq_refl))) _ eq_refl eq_refl).
  lia.
Defined.

(** C2. A nil result is never placed on [outChan]: in every run, the
    values the consumer has received are non-nil, each is what
    [reduceFunc] returns for an input item, and together they are part of
    the non-nil results of the items, so that an item with a nil result
    contributes no value. *)
Theorem nil_result_never_sent {Item Res : Type}
    (reduceFunc : Item → outcome (Res := Res)) (src : source)
    (numWorkers : Z) (items : list Item)
    (sched : list thread) (tr : list event) (s : state) :
  run reduceFunc src numWorkers sched (start items) = Some (tr, s) →
  (None ∉ out s)
  ∧ out s ⊆+ results reduceFunc items
  ∧ (∀ v, v ∈ out s → ∃ x, x ∈ items ∧ reduceFunc x = Returns v)
  ∧ (∀ x, reduceFunc x = Returns None → result_of reduceFunc x = []).
Proof.
  intros Hrun.
  destruct (data_inv_run _ _ _ _ _ _ _ Hrun) as [_ _ _ Hout Hcount _].
  assert (Hsub : out s ⊆+ results reduceFunc items).
  { rewrite Hcount. by apply submseteq_inserts_r. }
  split; [|split; [done|split]].
  - intros Hin. rewrite Forall_forall in Hout. by specialize (Hout _ Hin).
  - intros v Hv. eapply elem_of_submseteq in Hv; [|done].
    unfold results in Hv. apply list_elem_of_bind in Hv as (x & Hv & Hx).
    exists x. split; [done|]. unfold result_of in Hv.
    destruct (reduceFunc x) as [|v']; [by apply elem_of_nil in Hv|].
    destruct (is_nil v'); [by apply elem_of_nil in Hv|].
    by apply list_elem_of_singleton in Hv as ->.
  - intros x Hx. unfold result_of. by rewrite Hx.
Qed.

Lemma nil_result_never_sent_witness :
  ∃ tr s,
    run scenario_reduce FromChan 1 schedule_one_worker (start scenario_items)
    = Some (tr, s)
    ∧ scenario_reduce (B "a") = Returns None
    ∧ out s = [Some 2%nat; Some 3%nat]
    ∧ None ∉ out s.
Proof.
  eexists _, _. split; [reflexivity|]. split; [reflexivity|].
  split; [reflexivity|].
  exact (proj1 (nil_result_never_sent scenario_reduce FromChan 1 scenario_items
                  schedule_one_worker _ _ eq_refl)).
Defined.

(** C4. For a fixed input sequence and a reducer that does not panic on
    it, the multiset of non-nil results the engine produces is the same
    for every worker count of at least one: the outputs of any two
    complete runs are permutations of each other (and of the non-nil
    results of the items). *)
Theorem results_independent_of_worker_count {Item Res : Type}
    (reduceFunc : Item → outcome (Res := Res)) (src : source)
    (items : list Item) (W1 W2 : Z)
    (sched1 sched2 : list thread) (tr1 tr2 : list event) (s1 s2 : state) :
  1 ≤ W1 → 1 ≤ W2 →
  never_panics reduceFunc items →
  run reduceFunc src W1 sched1 (start items) = Some (tr1, s1) →
  stuck reduceFunc src W1 s1 = true →
  run reduceFunc src W2 sched2 (start items) = Some (tr2, s2) →
  stuck reduceFunc src W2 s2 = true →
  out s1 ≡ₚ out s2
  ∧ out s1 ≡ₚ results reduceFunc items
  ∧ out_closed s1 = true ∧ out_closed s2 = true.
Proof.
  intros HW1 HW2 Hnp Hrun1 Hst1 Hrun2 Hst2.
  destruct (data_inv_run _ _ _ _ _ _ _ Hrun1) as [_ _ _ _ _ Hn1].
  destruct (data_inv_run _ _ _ _ _ _ _ Hrun2) as [_ _ _ _ _ Hn2].
  destruct (Hn1 Hnp) as [Hcr1 _]. destruct (Hn2 Hnp) as [Hcr2 _].
  destruct (finished_out _ _ _ _ _ _ _ HW1 Hrun1 Hst1 Hcr1) as (? & _ & E1).
  destruct (finished_out _ _ _ _ _ _ _ HW2 Hrun2 Hst2 Hcr2) as (? & _ & E2).
  repeat split; try done. by rewrite E1, E2.
Qed.

Lemma results_independent_of_worker_count_witness :
  ∃ tr1 s1 tr2 s2,
    1 ≤ 1 ∧ 1 ≤ 2
    ∧ never_panics scenario_reduce scenario_items
    ∧ run scenario_reduce FromChan 1 schedule_one_worker (start scenario_items)
      = Some (tr1, s1)
    ∧ stuck scenario_reduce FromChan 1 s1 = true
    ∧ run scenario_reduce FromChan 2 schedule_two_workers (start scenario_items)
      = Some (tr2, s2)
    ∧ stuck scenario_reduce FromChan 2 s2 = true
    ∧ out s1 = [Some 2%nat; Some 3%nat]
    ∧ out s2 = [Some 3%nat; Some 2%nat]
    ∧ out s1 ≡ₚ out s2.
Proof.
  assert (Hnp : never_panics scenario_reduce scenario_items).
  { intros x _. unfold scenario_reduce. by destruct (bool_decide _). }
  eexists _, _, _, _.
  split; [lia|]. split; [lia|]. split; [exact Hnp|].
  split; [reflexivity|]. split; [reflexivity|].
  split; [reflexivity|]. split; [reflexivity|].
  split; [reflexivity|]. split; [reflexivity|].
  refine (proj1 (results_independent_of_worker_count scenario_reduce FromChan
                   scenario_items 1 2 schedule_one_worker schedule_two_workers
                   _ _ _ _ _ _ Hnp eq_refl eq_refl eq_refl eq_refl)); lia.
Defined.

(** C8. For every worker count of at least one, when the input channel is
    closed with no item sent, [GoReduce] comes to its end with [outChan]
    closed and no result produced: no run delivers anything, every run is
    finite and can be continued to its end, and a run that has come to its
    end has closed [outChan] (once). *)
Theorem empty_input_closes_without_results {Item Res : Type}
    (reduceFunc : Item → outcome (Res := Res)) (numWorkers : Z) :
  1 ≤ numWorkers →
  (∀ sched tr s,
     GoReduce [] numWorkers reduceFunc sched = Some (tr, s) →
     out s = []
     ∧ (length sched ≤ budget numWorkers (start (Item := Item) (Res := Res) []))%nat
     ∧ (stuck reduceFunc FromChan numWorkers s = true →
        out_closed s = true ∧ closes tr = 1%nat))
  ∧ (∀ sched tr s,
       GoReduce [] numWorkers reduceFunc sched = Some (tr, s) →
       ∃ sched' tr' s',
         GoReduce [] numWorkers reduceFunc (sched ++ sched') = Some (tr ++ tr', s')
         ∧ stuck reduceFunc FromChan numWorkers s' = true)
  ∧ ∃ sched tr s,
      GoReduce [] numWorkers reduceFunc sched = Some (tr, s)
      ∧ stuck reduceFunc FromChan numWorkers s = true.
Proof.
  intros HW. split; [|split; [|apply run_to_stuck]]; cycle 1.
  { intros sched tr s Hrun. unfold GoReduce in *.
    destruct (run_to_stuck reduceFunc FromChan numWorkers s)
      as (sched' & tr' & s' & Hrun' & Hst).
    exists sched', tr', s'. split; [|done]. by rewrite run_app, Hrun, Hrun'. }
  intros sched tr s Hrun. unfold GoReduce in Hrun.
  destruct (data_inv_run _ _ _ _ _ _ _ Hrun) as [_ _ _ _ Hcount Hnp].
  assert (Hcr : crashed s = false).
  { apply Hnp. intros x Hx. by apply elem_of_nil in Hx. }
  split; [|split].
  - unfold results in Hcount. simpl in Hcount. symmetry in Hcount.
    apply Permutation_nil_r in Hcount. by apply app_eq_nil in Hcount as [? _].
  - pose proof (run_budget _ _ _ _ _ _ _ Hrun). lia.
  - intros Hst.
    destruct (finished_out _ _ _ _ _ _ _ HW Hrun Hst Hcr) as (? & ? & _).
    done.
Qed.

Lemma empty_input_witness :
  1 ≤ 1
  ∧ ∃ sched tr s,
      GoReduce [] 1 scenario_reduce sched = Some (tr, s)
      ∧ stuck scenario_reduce FromChan 1 s = true.
Proof.
  split; [lia|].
  refine (proj2 (proj2 (empty_input_closes_without_results scenario_reduce 1 _))).
  lia.
Defined.

(** A reducer that panics on every item, one worker, one item. *)
Definition always_panics (_ : unit) : outcome (Res := unit) := Panics.

(** The worker receives the item, [reduceFunc] panics, the deferred
    [wg.Done()] runs, and the coordinator gets past [wg.Wait()] and closes
    [outChan] before the runtime ends the program. *)
Definition schedule_panic : list thread :=
  [TCoord; TCoord; TCoord; TWorker 0; TWorker 0; TWorker 0; TCoord; TCoord].

(** C3, as stated, fails: a panic in [reduceFunc] leaves the worker with
    its [wg.Done()] executed and the counter at zero, and no run reaches a
    state in which the coordinator is in [wg.Wait()] with every worker
    ended and the counter still positive. *)
Lemma worker_panic_counterexample :
  (∃ tr s,
     GoReduce [()] 1 always_panics schedule_panic = Some (tr, s)
     ∧ panics tr = [0%nat] ∧ dones tr = [0%nat]
     ∧ ws s = [WFatal] ∧ wg s = 0 ∧ out_closed s = true)
  ∧ ¬ ∃ sched tr s,
        GoReduce [()] 1 always_panics sched = Some (tr, s)
        ∧ 0%nat ∈ panics tr
        ∧ co s = CWait ∧ live_count (ws s) = 0%nat ∧ wg s ≠ 0.
Proof.
  split.
  - eexists _, _. repeat split; reflexivity.
  - intros (sched & tr & s & Hrun & _ & Hco & Hlive & Hwg).
    destruct (control_inv_run _ _ _ _ _ _ _ Hrun) as [Hwg' _ _ _ _ _ _].
    rewrite Hco, Hlive in Hwg'. by apply Hwg.
Qed.

(** C3, amended. A panic inside [reduceFunc] is not caught by the worker
    loop: the worker never gets back into its loop. As the panic leaves
    the worker, the deferred [wg.Done()] runs and decrements the counter,
    which at every moment counts exactly the workers that have not ended;
    so when all workers have ended [wg.Wait()] returns, the coordinator
    never waits for a worker that has panicked, and a run that has
    stopped after a panic has been stopped by the runtime ending the
    program. *)
Theorem panic_leaves_through_deferred_done {Item Res : Type}
    (reduceFunc : Item → outcome (Res := Res)) (src : source)
    (numWorkers : Z) (items : list Item)
    (sched : list thread) (tr : list event) (s : state) :
  run reduceFunc src numWorkers sched (start items) = Some (tr, s) →
  (∀ i, i ∈ panics tr → ∃ w, ws s !! i = Some w ∧ panicky w = true)
  ∧ wg s = Z.of_nat (live_count (ws s))
           + match co s with CGo _ => 1 | _ => 0 end
  ∧ (∀ i, ws s !! i = Some WFatal → i ∈ dones tr)
  ∧ (co s = CWait → live_count (ws s) = 0%nat → crashed s = false →
     step reduceFunc src numWorkers TCoord s
     = Some (EvWaited, with_co CCloseOut s))
  ∧ (stuck reduceFunc src numWorkers s = true → panics tr ≠ [] →
     crashed s = true).
Proof.
  intros Hrun.
  pose proof (panic_inv_run _ _ _ _ _ _ _ Hrun) as Hp.
  destruct (control_inv_run _ _ _ _ _ _ _ Hrun) as [Hwg _ _ _ _ _ _].
  destruct (trace_inv_run _ _ _ _ _ _ _ Hrun) as [_ _ Hdone _].
  split; [done|]. split; [done|]. split; [|split].
  - intros i Hi. by eapply Hdone.
  - intros Hco Hlive Hcr. unfold step, step_coord.
    rewrite Hcr, Hco. rewrite Hco, Hlive in Hwg. by rewrite Hwg.
  - intros Hst Hne. destruct (crashed s) eqn:Hcr; [done|].
    rewrite stuck_spec in Hst.
    destruct (panics tr) as [|i l] eqn:E; [done|].
    destruct (Hp i) as (w & Hw & Hpk); [rewrite E; left|].
    pose proof (Hst (TWorker i)) as Hi. pose proof (Hst TRuntime) as Hr.
    unfold step in Hi, Hr. rewrite Hcr in Hi, Hr.
    unfold step_worker in Hi. rewrite Hw in Hi.
    destruct w as [| | |[|]| |]; try done.
    + by destruct (wg s - 1 <? 0).
    + unfold step_runtime in Hr.
      by rewrite (existsb_fatal_intro _ _ Hw) in Hr.
Qed.

Lemma panic_leaves_through_deferred_done_witness :
  ∃ tr s,
    run always_panics FromChan 1 schedule_panic (start [()]) = Some (tr, s)
    ∧ panics tr = [0%nat]
    ∧ ws s !! 0%nat = Some WFatal
    ∧ 0%nat ∈ dones tr.
Proof.
  eexists _, _. split; [reflexivity|]. split; [reflexivity|].
  split; [reflexivity|].
  exact (proj1 (proj2 (proj2
    (panic_leaves_through_deferred_done always_panics FromChan 1 [()]
       schedule_panic _ _ eq_refl))) 0%nat eq_refl).
Defined.

(* ================================================================== *)
(** * Properties of go/format *)
(* ================================================================== *)

(** ** Recorded answers of go/parser, go/printer and bytes.TrimSpace

    The statement list "  x" (two spaces, then x) and the blank line, as
    [Source] hands them to the parser in its attempts, and the printed
    form of the files the last attempts yield. *)

Definition go_file : Type := @Format.File (list byte) (list byte).
Definition go_tree : Type := @Format.tree (list byte) (list byte) unit.

Definition file_x : go_file :=
  {| Format.Decls := [Format.FuncDecl (B "func _() { x }")];
     Format.Extra := B "package p" |}.

Definition file_empty : go_file :=
  {| Format.Decls := []; Format.Extra := B "package p" |}.

Definition recorded_ParseFile (fset : nat) (filename src : list byte)
  : nat * (go_file + Format.error) :=
  (S fset,
   if bool_decide (src = B "  x") then
     inr (B "1:3: expected 'package', found 'IDENT' x")
   else if bool_decide (src = B "package p;  x") then
     inr (B "1:13: expected declaration, found 'IDENT' x")
   else if bool_decide (src = B "package p; func _() {  x" ++ [nl] ++ B "}") then
     inl file_x
   else if bool_decide (src = [nl]) then
     inr (B "1:2: expected 'package', found 'EOF'")
   else if bool_decide (src = B "package p;" ++ [nl]) then
     inl file_empty
   else inr (B "not recorded")).

Definition recorded_Fprint (indent : Z) (fset : nat) (t : go_tree)
  : list byte * option Format.error :=
  match t with
  | Format.TFile (Some {| Format.Decls := [Format.FuncDecl d] |}) =>
      if bool_decide (d = B "func _() { x }") && (indent =? 0)
      then (B "package p" ++ [nl; nl] ++ B "func _() {" ++ [nl; tab]
              ++ B "x" ++ [nl] ++ B "}" ++ [nl], None)
      else ([], Some (B "not recorded"))
  | Format.TFile (Some {| Format.Decls := [] |}) =>
      if indent =? 0 then (B "package p" ++ [nl], None)
      else ([], Some (B "not recorded"))
  | _ => ([], Some (B "not recorded"))
  end.

(** [bytes.TrimSpace] on text whose white space is ASCII. *)
Fixpoint trim_left (l : list byte) : list byte :=
  match l with
  | b :: l' => if Format.isSpace b then trim_left l' else l
  | [] => []
  end.

Definition ascii_TrimSpace (l : list byte) : list byte :=
  reverse (trim_left (reverse (trim_left l))).

Lemma leading_space_trim_left l : Format.leading_space (trim_left l) = [].
Proof.
  induction l as [|b l IH]; simpl; [done|].
  destruct (Format.isSpace b) eqn:E; [done|]. simpl. by rewrite E.
Qed.

Lemma trim_left_stops r c :
  Format.isSpace c = false → ∃ r', trim_left (r ++ [c]) = r' ++ [c].
Proof.
  intros Hc. induction r as [|b r [r' IH]]; simpl.
  - rewrite Hc. by exists [].
  - destruct (Format.isSpace b); [by exists r'|]. by exists (b :: r).
Qed.

Lemma trim_left_keeps_head l :
  Format.leading_space l = [] →
  Format.leading_space (reverse (trim_left (reverse l))) = [].
Proof.
  destruct l as [|c k]; [done|]. simpl.
  destruct (Format.isSpace c) eqn:Ec; [done|]. intros _.
  rewrite reverse_cons. destruct (trim_left_stops (reverse k) c Ec) as [r' ->].
  rewrite reverse_app. simpl. by rewrite Ec.
Qed.

Lemma ascii_TrimSpace_trimmed t :
  Format.leading_space (ascii_TrimSpace t) = []
  ∧ Format.trailing_space (ascii_TrimSpace t) = [].
Proof.
  unfold ascii_TrimSpace, Format.trailing_space. split.
  - apply trim_left_keeps_head, leading_space_trim_left.
  - by rewrite reverse_involutive, leading_space_trim_left.
Qed.

Example Source_two_spaces_x :
  Format.Source 0%nat recorded_ParseFile recorded_Fprint (λ _ f, f)
    ascii_TrimSpace (B "  x")
  = Format.Ok ([tab] ++ B "x").
Proof. reflexivity. Qed.

(** An input that is white space only is a declaration list with no
    declaration: its leading and its trailing white space are the same
    bytes, and [Source] emits them twice. *)
Example Source_blank_line :
  Format.Source 0%nat recorded_ParseFile recorded_Fprint (λ _ f, f)
    ascii_TrimSpace [nl]
  = Format.Ok [nl; nl].
Proof. reflexivity. Qed.

(** C9, as stated, fails: [Source] accepts the statement list "  x" as a
    partial source file, and the bytes it returns start with one tab where
    the input starts with two spaces: the leading white space is not the
    same. *)
Lemma Source_leading_space_counterexample :
  ∃ fset file adjust adjustIndent res,
    Format.parse recorded_ParseFile ascii_TrimSpace 0%nat [] (B "  x") true
    = (fset, Format.Parsed file (Some adjust) adjustIndent)
    ∧ Format.Source 0%nat recorded_ParseFile recorded_Fprint (λ _ f, f)
        ascii_TrimSpace (B "  x") = Format.Ok res
    ∧ Format.leading_space (B "  x") = [sp; sp]
    ∧ Format.leading_space res = [tab]
    ∧ Format.leading_space res ≠ Format.leading_space (B "  x").
Proof.
  eexists _, _, _, _, _. split; [reflexivity|]. split; [reflexivity|].
  split; [reflexivity|]. split; [reflexivity|]. discriminate.
Qed.

(** C9, amended. For every partial source fragment accepted by [Source]
    (a declaration list or a statement list), the returned bytes are: the
    blank lines in front of the first code line of the input, as they are;
    then one tab per tab of the indentation of that line (one tab when
    that indentation has spaces only); then the fragment printed at that
    indentation, with no white space at its ends; then the trailing white
    space of the input, as it is. So, when the printed fragment is not
    empty, the result has the trailing white space of the input, and the
    leading white space of the input whenever the first code line is
    indented with tabs only. Imports are not sorted: the result does not
    depend on what [ast.SortImports] does. *)
Theorem Source_partial_fragment {Spec Rest Comments FileSet : Type}
    (NewFileSet : FileSet)
    (ParseFile : FileSet → list byte → list byte
                 → FileSet * (@Format.File Spec Rest + Format.error))
    (Fprint : Z → FileSet → @Format.tree Spec Rest Comments
              → list byte * option Format.error)
    (SortImports : FileSet → @Format.File Spec Rest → @Format.File Spec Rest)
    (TrimSpace : list byte → list byte)
    (src : list byte) (fset' : FileSet) (file : @Format.File Spec Rest)
    (adjust : list byte → Z → option (list byte)) (adjustIndent : Z)
    (res : list byte) :
  (∀ t, Format.leading_space (TrimSpace t) = []
        ∧ Format.trailing_space (TrimSpace t) = []) →
  Format.parse ParseFile TrimSpace NewFileSet [] src true
  = (fset', Format.Parsed file (Some adjust) adjustIndent) →
  Format.Source NewFileSet ParseFile Fprint SortImports TrimSpace src
  = Format.Ok res →
  let n := Format.indent_amount (Format.first_indent src) in
  ∃ buf body,
    Fprint (n + adjustIndent) fset' (Format.TFile (Some file)) = (buf, None)
    ∧ adjust buf (n + adjustIndent) = Some body
    ∧ Format.leading_space body = [] ∧ Format.trailing_space body = []
    ∧ res = Format.blank_lines src ++ replicate (Z.to_nat n) tab
            ++ body ++ Format.trailing_space src
    ∧ (body ≠ [] →
       Format.trailing_space res = Format.trailing_space src
       ∧ Format.leading_space res
         = Format.blank_lines src ++ replicate (Z.to_nat n) tab
       ∧ (Format.first_indent src = replicate (Z.to_nat n) tab →
          Format.leading_space res = Format.leading_space src))
    ∧ ∀ SortImports',
        Format.Source NewFileSet ParseFile Fprint SortImports' TrimSpace src
        = Format.Ok res.
Proof.
  intros Htrim Hparse Hsrc n.
  pose proof (Format.Source_partial_eq NewFileSet ParseFile Fprint
                SortImports TrimSpace _ _ _ _ _ Hparse) as E.
  rewrite Hsrc in E. cbn zeta in E. fold n in E.
  destruct (Fprint (n + adjustIndent) fset' (Format.TFile (Some file)))
    as [buf [err|]] eqn:Ep; [done|].
  destruct (adjust buf (n + adjustIndent)) as [body|] eqn:Ea; [|done].
  injection E as ->. exists buf, body.
  assert (Hbody : Format.leading_space body = []
                  ∧ Format.trailing_space body = []).
  { destruct (Format.parse_adjust _ _ _ _ _ _ _ _ _ _ Hparse)
      as [[-> _]|[-> _]].
    - apply Format.adjust_decls_trimmed in Ea as [t ->]. apply Htrim.
    - apply Format.adjust_stmts_trimmed in Ea as [t ->]. apply Htrim. }
  destruct Hbody as [Hl Ht].
  assert (Hpre : Forall (λ b, Format.isSpace b = true)
                   (Format.blank_lines src ++ replicate (Z.to_nat n) tab)).
  { apply Forall_app. split; [apply Format.blank_lines_Forall|].
    by apply Forall_replicate. }
  split; [done|]. split; [done|]. split; [done|]. split; [done|].
  split; [by rewrite <- !(assoc_L (++))|]. split.
  - intros Hne. split; [|split].
    + rewrite <- (assoc_L (++)).
      apply Format.trailing_space_wrap; [apply Format.trailing_space_Forall|done..].
    + rewrite <- (assoc_L (++)). by apply Format.leading_space_wrap.
    + intros Hind. rewrite <- (assoc_L (++)).
      rewrite Format.leading_space_wrap by done.
      by rewrite Format.leading_space_split, Hind.
  - intros S'.
    rewrite (Format.Source_partial_eq NewFileSet ParseFile Fprint S'
               TrimSpace _ _ _ _ _ Hparse).
    cbn zeta. fold n. by rewrite Ep, Ea.
Qed.

Lemma Source_partial_fragment_witness :
  (∀ t, Format.leading_space (ascii_TrimSpace t) = []
        ∧ Format.trailing_space (ascii_TrimSpace t) = [])
  ∧ Format.parse recorded_ParseFile ascii_TrimSpace 0%nat [] (B "  x") true
    = (3%nat, Format.Parsed file_x (Some (Format.adjust_stmts ascii_TrimSpace)) (-1))
  ∧ Format.Source 0%nat recorded_ParseFile recorded_Fprint (λ _ f, f)
      ascii_TrimSpace (B "  x") = Format.Ok ([tab] ++ B "x")
  ∧ ∃ buf body,
      recorded_Fprint (1 + -1) 3%nat (Format.TFile (Some file_x)) = (buf, None)
      ∧ Format.adjust_stmts ascii_TrimSpace buf (1 + -1) = Some body.
Proof.
  split; [exact ascii_TrimSpace_trimmed|]. split; [reflexivity|].
  split; [reflexivity|].
  destruct (Source_partial_fragment 0%nat recorded_ParseFile recorded_Fprint
              (λ _ f, f) ascii_TrimSpace (B "  x") 3%nat file_x
              (Format.adjust_stmts ascii_TrimSpace) (-1) ([tab] ++ B "x")
              ascii_TrimSpace_trimmed eq_refl eq_refl)
    as (buf & body & Hp & Ha & _).
  by exists buf, body.
Defined.

(** C10. [Node] does not modify the node it is given: every file object
    that was on the heap before the call is unchanged after it, so the
    node denotes the same tree. Either the heap is as it was, or the file
    had unsorted imports, was printed and parsed again, and the re-parsed
    file, a new object, is the only one [ast.SortImports] was applied
    to. *)
Theorem Node_does_not_modify_node {Spec Rest Comments FileSet : Type}
    (ParseFile : FileSet → list byte → list byte
                 → FileSet * (@Format.File Spec Rest + Format.error))
    (Fprint : Z → FileSet → @Format.tree Spec Rest Comments
              → list byte * option Format.error)
    (SortImports : FileSet → @Format.File Spec Rest → @Format.File Spec Rest)
    (dst : list byte) (fset : FileSet)
    (n : @Format.node Rest Comments) (σ : gmap positive (@Format.File Spec Rest)) :
  let σ' := (Format.Node ParseFile Fprint SortImports dst fset n σ).1.1.1 in
  σ ⊆ σ'
  ∧ Format.resolve σ' n = Format.resolve σ n
  ∧ (σ' = σ
     ∨ ∃ p f buf fset1 parsed,
         (n = Format.NFile (Some p)
          ∨ ∃ cs, n = Format.NCommented (Format.NFile (Some p)) cs)
         ∧ σ !! p = Some f
         ∧ Format.hasUnsortedImports f = true
         ∧ Fprint 0 fset (Format.TFile (Some f)) = (buf, None)
         ∧ ParseFile fset [] buf = (fset1, inl parsed)
         ∧ σ !! fresh (dom σ) = None
         ∧ σ' = <[fresh (dom σ) := SortImports fset1 parsed]> σ).
Proof.
  assert (Hfresh : σ !! fresh (dom σ) = None).
  { apply not_elem_of_dom, is_fresh. }
  assert (Hcopy : ∀ p f fset1 parsed,
    (n = Format.NFile (Some p)
     ∨ ∃ cs, n = Format.NCommented (Format.NFile (Some p)) cs) →
    σ !! p = Some f →
    let σ' := <[fresh (dom σ) := SortImports fset1 parsed]>
                (<[fresh (dom σ) := parsed]> σ) in
    σ ⊆ σ' ∧ Format.resolve σ' n = Format.resolve σ n
    ∧ σ' = <[fresh (dom σ) := SortImports fset1 parsed]> σ).
  { intros p f fset1 parsed Hn Hp σ'. subst σ'. rewrite insert_insert_eq.
    split; [by apply insert_subseteq|]. split; [|done].
    assert (Hne : fresh (dom σ) ≠ p) by (intros <-; congruence).
    destruct Hn as [->|[cs ->]]; simpl; by rewrite lookup_insert_ne. }
  unfold Format.Node.
  destruct n as [[p|]|[[p|]|n' cs'|o] cs|o]; simpl;
    try (destruct (Fprint 0 fset _) as [out err]; simpl;
         split; [done|]; split; [done|]; by left).
  all: destruct (σ !! p) as [f|] eqn:Hp; simpl;
    [destruct (Format.hasUnsortedImports f) eqn:Hu|];
    try (destruct (Fprint 0 fset _) as [out err]; simpl; rewrite ?Hp;
         split; [done|]; split; [done|]; by left).
  all: destruct (Fprint 0 fset (Format.TFile (Some f))) as [buf [err|]] eqn:Ef;
    simpl; rewrite ?Hp; [split; [done|]; split; [done|]; by left|].
  all: destruct (ParseFile fset [] buf) as [fset1 [parsed|err]] eqn:Epf;
    simpl; rewrite ?Hp; [|split; [done|]; split; [done|]; by left].
  all: destruct (Fprint 0 fset1 _) as [out err]; simpl.
  all: edestruct (Hcopy p f fset1 parsed) as (H1 & H2 & H3); [eauto|done|].
  all: simpl in H2; rewrite ?Hp in H2.
  all: split; [done|]; split; [done|]; right.
  all: exists p, f, buf, fset1, parsed; eauto 10.
Qed.

(** A file with a grouped, unsorted import declaration: [Node] prints the
    sorted copy and leaves the file it was given as it was. *)
Definition dq : byte := "034"%char.
Definition imp (path : string) : list byte := [dq] ++ B path ++ [dq].

Definition imports_file (specs : list (list byte)) : go_file :=
  {| Format.Decls := [Format.GenDecl Format.IMPORT 11 specs];
     Format.Extra := B "package p" |}.

Definition imports_text (specs : list (list byte)) : list byte :=
  B "package p" ++ [nl; nl] ++ B "import (" ++ [nl]
  ++ concat ((λ s, [tab] ++ s ++ [nl]) <$> specs) ++ B ")" ++ [nl].

Definition imports_Fprint (indent : Z) (fset : nat) (t : go_tree)
  : list byte * option Format.error :=
  match t with
  | Format.TFile (Some {| Format.Decls := [Format.GenDecl Format.IMPORT _ specs] |}) =>
      (imports_text specs, None)
  | _ => ([], Some (B "not recorded"))
  end.

Definition imports_ParseFile (fset : nat) (filename src : list byte)
  : nat * (go_file + Format.error) :=
  (S fset,
   if bool_decide (src = imports_text [imp "os"; imp "fmt"])
   then inl (imports_file [imp "os"; imp "fmt"])
   else inr (B "not recorded")).

Definition imports_SortImports (fset : nat) (f : go_file) : go_file :=
  match Format.Decls f with
  | [Format.GenDecl Format.IMPORT _ [a; b]] =>
      if bool_decide (a = imp "os") && bool_decide (b = imp "fmt")
      then imports_file [b; a] else f
  | _ => f
  end.

Example Node_sorts_a_copy :
  let σ : gmap positive go_file := {[ 1%positive := imports_file [imp "os"; imp "fmt"] ]} in
  let '(σ', _, dst, err) :=
    Format.Node imports_ParseFile imports_Fprint imports_SortImports
      [] 0%nat (Format.NFile (Some 1%positive)) σ in
  σ' !! 1%positive = Some (imports_file [imp "os"; imp "fmt"])
  ∧ dst = imports_text [imp "fmt"; imp "os"]
  ∧ err = None.
Proof. vm_compute. done. Qed.

(* ================================================================== *)
(** * Further properties of the segmenter *)
(* ================================================================== *)

(** X1. The callback of [ProcessLinesFromReader] is invoked as many times
    as the stream has newline bytes, and never with a line that contains
    a newline; so a stream without newline, the empty one included, gives
    no call at all. *)
Theorem callbacks_count_newlines (data : list byte) (e : Lines.error) :
  length (Lines.calls {| Lines.unread := data; Lines.fails := e |})
  = Lines.newlines data
  ∧ Forall (λ l, nl ∉ l)
      (Lines.calls {| Lines.unread := data; Lines.fails := e |})
  ∧ (nl ∉ data ↔
     Lines.calls {| Lines.unread := data; Lines.fails := e |} = []).
Proof.
  rewrite Lines.calls_segments.
  pose proof (Lines.segments_spec data) as H.
  pose proof (Lines.segments_length data) as Hlen.
  destruct (Lines.segments data) as [ls t]. destruct H as (Hd & Hls & Ht).
  simpl in *. split; [done|]. split; [done|]. split.
  - intros Hn. destruct ls as [|l ls]; [done|]. exfalso. apply Hn.
    rewrite Hd. unfold Lines.terminated. simpl.
    rewrite !elem_of_app. left. left. right. by left.
  - intros ->. by rewrite Hd.
Qed.

(** X2. Processing a stream that continues after a newline is processing
    the part up to that newline and then the rest, with the state the
    callback has reached: the lines of a concatenation are the lines of
    the parts. *)
Theorem lines_of_concatenation
    (a d : list byte) (e1 e2 e3 : Lines.error)
    (St : Type) (processFunc : list byte → St → St) (s : St) :
  Lines.ProcessLinesFromReader processFunc
    {| Lines.unread := a ++ nl :: d; Lines.fails := e1 |} s
  = Lines.ProcessLinesFromReader processFunc
      {| Lines.unread := d; Lines.fails := e2 |}
      (Lines.ProcessLinesFromReader processFunc
         {| Lines.unread := a ++ [nl]; Lines.fails := e3 |} s)
  ∧ Lines.calls {| Lines.unread := a ++ nl :: d; Lines.fails := e1 |}
    = Lines.calls {| Lines.unread := a ++ [nl]; Lines.fails := e3 |}
      ++ Lines.calls {| Lines.unread := d; Lines.fails := e2 |}.
Proof.
  unfold Lines.ProcessLinesFromReader. split.
  - rewrite !Lines.lines_loop_segments, Lines.segments_app_nl.
    by rewrite foldl_app.
  - by rewrite !Lines.calls_segments, Lines.segments_app_nl.
Qed.

(* ================================================================== *)
(** * Further properties of the engine *)
(* ================================================================== *)

(** The reader of the scenario: three terminated lines and an unterminated
    one, fed by [GoReduceLinesFromReader] to one worker. *)
Definition scenario_reader : Lines.Reader :=
  {| Lines.unread := Lines.terminated scenario_items ++ B "z";
     Lines.fails := Lines.EOF |}.

Definition schedule_lines_one_worker : list thread :=
  [TCoord; TCoord; TCoord;
   TWorker 0; TWorker 0;
   TWorker 0; TWorker 0; TWorker 0;
   TWorker 0; TWorker 0; TWorker 0;
   TCoord; TWorker 0; TWorker 0; TCoord; TCoord].

(** Without a worker the coordinator of [GoReduce] leaves its loop at
    once, passes [wg.Wait()] and closes [outChan]. *)
Definition schedule_no_worker : list thread := [TCoord; TCoord; TCoord].

(** Two workers, each holding an item. *)
Definition schedule_two_busy : list thread :=
  [TCoord; TCoord; TCoord; TCoord; TCoord; TWorker 0; TWorker 1].

(** X3. Every item is handed to a worker exactly once, in the order of the
    input: at any moment the items received so far, followed by those
    still to be sent, are the input; and when a run with at least one
    worker has come to its end without a crash, all items have been
    received. *)
Theorem each_item_received_once {Item Res : Type}
    (reduceFunc : Item → outcome (Res := Res)) (src : source)
    (numWorkers : Z) (items : list Item)
    (sched : list thread) (tr : list event) (s : state) :
  run reduceFunc src numWorkers sched (start items) = Some (tr, s) →
  received tr ++ pending s = items
  ∧ (1 ≤ numWorkers → stuck reduceFunc src numWorkers s = true →
     crashed s = false → received tr = items).
Proof.
  intros Hrun. pose proof (received_run _ _ _ _ _ _ _ Hrun) as Hr.
  split; [done|]. intros HW Hst Hcr.
  pose proof (control_inv_run _ _ _ _ _ _ _ Hrun) as Hc.
  destruct (stuck_finished _ _ _ _ Hc HW Hst Hcr) as (_ & _ & _ & Hp & _).
  by rewrite Hp, app_nil_r in Hr.
Qed.

Lemma each_item_received_once_witness :
  ∃ tr s,
    run scenario_reduce FromChan 2 schedule_two_workers (start scenario_items)
    = Some (tr, s)
    ∧ received tr = scenario_items ∧ pending s = [].
Proof.
  eexists _, _. split; [reflexivity|]. split; [|reflexivity].
  refine (proj2 (each_item_received_once scenario_reduce FromChan 2
                   scenario_items schedule_two_workers _ _ eq_refl)
            _ eq_refl eq_refl).
  lia.
Defined.

(** X4. With a single worker the results arrive in the order of the
    items: what the consumer has received is at any moment a prefix of the
    non-nil results of the items in input order, and it is all of them
    when the run has come to its end without a crash. *)
Theorem single_worker_keeps_order {Item Res : Type}
    (reduceFunc : Item → outcome (Res := Res)) (src : source)
    (numWorkers : Z) (items : list Item)
    (sched : list thread) (tr : list event) (s : state) :
  numWorkers ≤ 1 →
  run reduceFunc src numWorkers sched (start items) = Some (tr, s) →
  out s `prefix_of` results reduceFunc items
  ∧ (numWorkers = 1 → stuck reduceFunc src numWorkers s = true →
     crashed s = false → out s = results reduceFunc items).
Proof.
  intros HW Hrun.
  pose proof (control_inv_run _ _ _ _ _ _ _ Hrun) as Hc.
  pose proof (workers_bounded _ _ _ Hc) as Hb.
  pose proof (single_worker_order _ _ _ _ _ _ _ Hrun ltac:(lia)) as Ho.
  split; [by eexists|].
  intros -> Hst Hcr.
  destruct (stuck_finished _ _ _ _ Hc ltac:(lia) Hst Hcr)
    as (_ & _ & _ & Hp & Hall).
  rewrite Ho, Hp, in_flight_exit by done. unfold results. simpl.
  by rewrite !app_nil_r.
Qed.

Lemma single_worker_keeps_order_witness :
  ∃ tr s,
    1 ≤ 1
    ∧ run scenario_reduce FromChan 1 schedule_one_worker (start scenario_items)
      = Some (tr, s)
    ∧ out s = results scenario_reduce scenario_items
    ∧ out s = [Some 2%nat; Some 3%nat].
Proof.
  eexists _, _. split; [lia|]. split; [reflexivity|]. split; [|reflexivity].
  refine (proj2 (single_worker_keeps_order scenario_reduce FromChan 1
                   scenario_items schedule_one_worker _ _ _ eq_refl)
            eq_refl eq_refl eq_refl).
  lia.
Defined.

(** X5. No goroutine is left behind: when a run with at least one worker
    has come to its end without a crash, the coordinator has ended, all
    [numWorkers] workers have returned, the [WaitGroup] counter is zero,
    and [inChan] is closed and drained. *)
Theorem no_goroutine_left_behind {Item Res : Type}
    (reduceFunc : Item → outcome (Res := Res)) (src : source)
    (numWorkers : Z) (items : list Item)
    (sched : list thread) (tr : list event) (s : state) :
  1 ≤ numWorkers →
  run reduceFunc src numWorkers sched (start items) = Some (tr, s) →
  stuck reduceFunc src numWorkers s = true → crashed s = false →
  co s = CExit
  ∧ Z.of_nat (length (ws s)) = numWorkers
  ∧ Forall (λ w, w = WExit) (ws s)
  ∧ wg s = 0
  ∧ in_closed s = true ∧ pending s = [].
Proof.
  intros HW Hrun Hst Hcr.
  pose proof (control_inv_run _ _ _ _ _ _ _ Hrun) as Hc.
  destruct (stuck_finished _ _ _ _ Hc HW Hst Hcr) as (Hco & _ & Hic & Hp & Hall).
  destruct Hc as [Hwg Hlen _ Hdead _ _ _]. rewrite Hco in Hwg, Hlen, Hdead.
  repeat split; try done; lia.
Qed.

Lemma no_goroutine_left_behind_witness :
  ∃ tr s,
    1 ≤ 2
    ∧ run scenario_reduce FromChan 2 schedule_two_workers (start scenario_items)
      = Some (tr, s)
    ∧ stuck scenario_reduce FromChan 2 s = true ∧ crashed s = false
    ∧ ws s = [WExit; WExit] ∧ wg s = 0.
Proof.
  eexists _, _. split; [lia|]. split; [reflexivity|].
  split; [reflexivity|]. split; [reflexivity|]. split; [reflexivity|].
  refine (proj1 (proj2 (proj2 (proj2
    (no_goroutine_left_behind scenario_reduce FromChan 2 scenario_items
       schedule_two_workers _ _ _ eq_refl eq_refl eq_refl))))).
  lia.
Defined.

(** X6. The engine does not panic by itself: its coordinator never sends
    on or closes a closed channel, and when [reduceFunc] panics on none of
    the items no worker panics (no send on a closed [outChan], no negative
    counter) and the program is not ended by the runtime. *)
Theorem engine_does_not_panic_by_itself {Item Res : Type}
    (reduceFunc : Item → outcome (Res := Res)) (src : source)
    (numWorkers : Z) (items : list Item)
    (sched : list thread) (tr : list event) (s : state) :
  run reduceFunc src numWorkers sched (start items) = Some (tr, s) →
  (EvCoordPanic ∉ tr)
  ∧ (never_panics reduceFunc items → crashed s = false ∧ panics tr = []).
Proof.
  intros Hrun. split; [by eapply coord_never_panics|]. intros Hnp.
  destruct (data_inv_run _ _ _ _ _ _ _ Hrun) as [_ _ _ _ _ Hn].
  destruct (Hn Hnp) as [Hcr Hpk]. split; [done|].
  pose proof (panic_inv_run _ _ _ _ _ _ _ Hrun) as Hp.
  destruct (panics tr) as [|i l] eqn:E; [done|].
  destruct (Hp i) as (w & Hw & Hpw); [rewrite E; left|].
  by rewrite (Hpk _ _ Hw) in Hpw.
Qed.

Lemma engine_does_not_panic_by_itself_witness :
  ∃ tr s,
    run scenario_reduce FromChan 2 schedule_two_workers (start scenario_items)
    = Some (tr, s)
    ∧ never_panics scenario_reduce scenario_items
    ∧ crashed s = false ∧ panics tr = [].
Proof.
  assert (Hnp : never_panics scenario_reduce scenario_items).
  { intros x _. unfold scenario_reduce. by destruct (bool_decide _). }
  eexists _, _. split; [reflexivity|]. split; [exact Hnp|].
  exact (proj2 (engine_does_not_panic_by_itself scenario_reduce FromChan 2
                  scenario_items schedule_two_workers _ _ eq_refl) Hnp).
Defined.

(** X7. With [numWorkers] zero or negative, [GoReduce] starts no worker
    and takes nothing from its input channel: a run that has come to its
    end has closed [outChan] with no result on it, and all the items are
    still with the caller, who has closed [inChan] only if there was
    nothing to send. *)
Theorem GoReduce_without_workers {Item Res : Type}
    (reduceFunc : Item → outcome (Res := Res))
    (numWorkers : Z) (items : list Item)
    (sched : list thread) (tr : list event) (s : state) :
  numWorkers ≤ 0 →
  GoReduce items numWorkers reduceFunc sched = Some (tr, s) →
  ws s = [] ∧ out s = [] ∧ pending s = items ∧ crashed s = false
  ∧ (stuck reduceFunc FromChan numWorkers s = true →
     out_closed s = true ∧ closes tr = 1%nat
     ∧ (in_closed s = true ↔ items = [])).
Proof.
  intros HW Hrun. unfold GoReduce in Hrun.
  destruct (no_workers_run _ _ _ _ _ _ _ HW Hrun) as (Hws & Hp & Ho & Hcr).
  split; [done|]. split; [done|]. split; [done|]. split; [done|].
  intros Hst. rewrite stuck_spec in Hst.
  pose proof (control_inv_run _ _ _ _ _ _ _ Hrun) as Hc.
  pose proof (coord_never_fatal _ _ _ Hc) as Hnf.
  destruct (trace_inv_run _ _ _ _ _ _ _ Hrun) as [_ _ _ Hcl].
  destruct Hc as [Hwg Hco Hout _ _ Hpend _].
  pose proof (Hst TCoord) as H1. pose proof (Hst TCaller) as H2.
  unfold step in H1, H2. rewrite Hcr in H1, H2.
  unfold step_coord in H1. unfold step_caller in H2.
  destruct (co s) as [k|k| | | | |] eqn:E; try done.
  - by destruct (k <? numWorkers).
  - by destruct Hco.
  - rewrite Hws in Hwg. simpl in Hwg. by rewrite Hwg in H1.
  - by destruct (out_closed s).
  - split; [done|]. split; [by rewrite Hcl, Hout|].
    rewrite Hp in H2, Hpend. split; [done|]. intros ->.
    by destruct (in_closed s).
Qed.

Lemma GoReduce_without_workers_witness :
  ∃ tr s,
    0 ≤ 0
    ∧ GoReduce scenario_items 0 scenario_reduce schedule_no_worker = Some (tr, s)
    ∧ stuck scenario_reduce FromChan 0 s = true
    ∧ out_closed s = true ∧ out s = [] ∧ pending s = scenario_items.
Proof.
  eexists _, _. split; [lia|]. split; [reflexivity|]. split; [reflexivity|].
  split; [reflexivity|]. split; [reflexivity|].
  refine (proj1 (proj2 (proj2
    (GoReduce_without_workers scenario_reduce 0 scenario_items
       schedule_no_worker _ _ _ eq_refl)))).
  lia.
Defined.

(** X8. With [numWorkers] zero or negative and at least one line to send,
    [GoReduceLinesFromReader] never closes [outChan] (nor [inChan]): the
    coordinator blocks in the callback on the first line, and there the
    run stops. *)
Theorem GoReduceLinesFromReader_without_workers {Res : Type}
    (r : Lines.Reader) (numWorkers : Z)
    (reduceFunc : list byte → outcome (Res := Res)) :
  numWorkers ≤ 0 → Lines.calls r ≠ [] →
  (∀ sched tr s,
     GoReduceLinesFromReader r numWorkers reduceFunc sched = Some (tr, s) →
     out_closed s = false ∧ in_closed s = false
     ∧ out s = [] ∧ pending s = Lines.calls r
     ∧ (stuck reduceFunc FromReader numWorkers s = true →
        co s = CFeed ∧ crashed s = false))
  ∧ ∃ sched tr s,
      GoReduceLinesFromReader r numWorkers reduceFunc sched = Some (tr, s)
      ∧ stuck reduceFunc FromReader numWorkers s = true.
Proof.
  intros HW Hne. split; [|apply run_to_stuck].
  intros sched tr s Hrun. unfold GoReduceLinesFromReader in Hrun.
  destruct (no_workers_run _ _ _ _ _ _ _ HW Hrun) as (Hws & Hp & Ho & Hcr).
  pose proof (no_workers_blocked _ _ _ _ _ _ _ HW eq_refl Hne Hrun) as Hco.
  destruct (control_inv_run _ _ _ _ _ _ _ Hrun) as [_ _ Hout _ Hin _ _].
  specialize (Hin eq_refl).
  split; [by destruct Hco as [[k E]|E]; rewrite E in Hout|].
  split; [by destruct Hco as [[k E]|E]; rewrite E in Hin|].
  split; [done|]. split; [done|].
  intros Hst. split; [|done]. rewrite stuck_spec in Hst.
  destruct Hco as [[k E]|E]; [|done].
  specialize (Hst TCoord). unfold step, step_coord in Hst.
  rewrite Hcr, E in Hst. by destruct (k <? numWorkers).
Qed.

Lemma GoReduceLinesFromReader_without_workers_witness :
  0 ≤ 0 ∧ Lines.calls scenario_reader ≠ []
  ∧ ∃ sched tr s,
      GoReduceLinesFromReader scenario_reader 0 scenario_reduce sched
      = Some (tr, s)
      ∧ stuck scenario_reduce FromReader 0 s = true.
Proof.
  assert (Hne : Lines.calls scenario_reader ≠ []) by (vm_compute; discriminate).
  split; [lia|]. split; [exact Hne|].
  refine (proj2 (GoReduceLinesFromReader_without_workers scenario_reader 0
                   scenario_reduce _ Hne)).
  lia.
Defined.

(** X9. With at least one worker and a reducer that does not panic on the
    items, [outChan] is closed only after [inChan] has been closed and all
    the items have been received: as long as the producer has not closed
    its channel, the engine does not close its output. *)
Theorem output_closed_only_after_input {Item Res : Type}
    (reduceFunc : Item → outcome (Res := Res)) (src : source)
    (numWorkers : Z) (items : list Item)
    (sched : list thread) (tr : list event) (s : state) :
  1 ≤ numWorkers → never_panics reduceFunc items →
  run reduceFunc src numWorkers sched (start items) = Some (tr, s) →
  out_closed s = true →
  in_closed s = true ∧ pending s = [] ∧ received tr = items.
Proof.
  intros HW Hnp Hrun Hoc.
  pose proof (received_run _ _ _ _ _ _ _ Hrun) as Hr.
  destruct (data_inv_run _ _ _ _ _ _ _ Hrun) as [_ _ _ _ _ Hn].
  destruct (Hn Hnp) as [_ Hpk].
  destruct (control_inv_run _ _ _ _ _ _ _ Hrun)
    as [_ Hlen Hout Hdead _ Hpend Hret].
  rewrite Hoc in Hout. destruct (co s); try done.
  destruct (ws s) as [|w l] eqn:Ews; [simpl in Hlen; lia|].
  assert (Hic : in_closed s = true).
  { apply (Hret 0%nat w); [done|].
    pose proof (live_count_0 (w :: l) 0%nat w eq_refl Hdead) as Hl.
    pose proof (Hpk 0%nat w eq_refl) as Hp.
    by destruct w as [| | |[|]| |]. }
  split; [done|]. specialize (Hpend Hic). split; [done|].
  by rewrite Hpend, app_nil_r in Hr.
Qed.

Lemma output_closed_only_after_input_witness :
  ∃ tr s,
    1 ≤ 2 ∧ never_panics scenario_reduce scenario_items
    ∧ run scenario_reduce FromChan 2 schedule_two_workers (start scenario_items)
      = Some (tr, s)
    ∧ out_closed s = true ∧ in_closed s = true.
Proof.
  assert (Hnp : never_panics scenario_reduce scenario_items).
  { intros x _. unfold scenario_reduce. by destruct (bool_decide _). }
  eexists _, _. split; [lia|]. split; [exact Hnp|]. split; [reflexivity|].
  split; [reflexivity|].
  refine (proj1 (output_closed_only_after_input scenario_reduce FromChan 2
                   scenario_items schedule_two_workers _ _ _ Hnp eq_refl eq_refl)).
  lia.
Defined.

(** X10. [GoReduceLinesFromReader] end to end: on a stream of
    newline-terminated lines [ls] followed by an unterminated rest, with
    at least one worker and a reducer that does not panic on the lines, a
    run that has come to its end has handed exactly the lines [ls] to the
    workers, in order, and has delivered the non-nil results of [ls], in
    some order, before closing [outChan]; the rest reaches no worker. *)
Theorem lines_reduced_end_to_end {Res : Type}
    (ls : list (list byte)) (t : list byte) (e : Lines.error)
    (numWorkers : Z) (reduceFunc : list byte → outcome (Res := Res))
    (sched : list thread) (tr : list event) (s : state) :
  Forall (λ l, nl ∉ l) ls → nl ∉ t →
  1 ≤ numWorkers → never_panics reduceFunc ls →
  GoReduceLinesFromReader
    {| Lines.unread := Lines.terminated ls ++ t; Lines.fails := e |}
    numWorkers reduceFunc sched = Some (tr, s) →
  stuck reduceFunc FromReader numWorkers s = true →
  received tr = ls
  ∧ out s ≡ₚ results reduceFunc ls
  ∧ out_closed s = true.
Proof.
  intros Hls Ht HW Hnp Hrun Hst. unfold GoReduceLinesFromReader in Hrun.
  rewrite Lines.calls_terminated in Hrun by done.
  destruct (data_inv_run _ _ _ _ _ _ _ Hrun) as [_ _ _ _ _ Hn].
  destruct (Hn Hnp) as [Hcr _].
  destruct (finished_out _ _ _ _ _ _ _ HW Hrun Hst Hcr) as (Hoc & _ & Hout).
  split; [|done].
  pose proof (received_run _ _ _ _ _ _ _ Hrun) as Hr.
  pose proof (control_inv_run _ _ _ _ _ _ _ Hrun) as Hc.
  destruct (stuck_finished _ _ _ _ Hc HW Hst Hcr) as (_ & _ & _ & Hp & _).
  by rewrite Hp, app_nil_r in Hr.
Qed.

Lemma lines_reduced_end_to_end_witness :
  ∃ tr s,
    Forall (λ l, nl ∉ l) scenario_items ∧ (nl ∉ B "z") ∧ 1 ≤ 1
    ∧ never_panics scenario_reduce scenario_items
    ∧ GoReduceLinesFromReader scenario_reader 1 scenario_reduce
        schedule_lines_one_worker = Some (tr, s)
    ∧ stuck scenario_reduce FromReader 1 s = true
    ∧ out s = [Some 2%nat; Some 3%nat]
    ∧ received tr = scenario_items.
Proof.
  assert (H1 : Forall (λ l, nl ∉ l) scenario_items) by compute_done.
  assert (H2 : nl ∉ B "z") by compute_done.
  assert (Hnp : never_panics scenario_reduce scenario_items).
  { intros x _. unfold scenario_reduce. by destruct (bool_decide _). }
  eexists _, _. split; [exact H1|]. split; [exact H2|]. split; [lia|].
  split; [exact Hnp|]. split; [reflexivity|]. split; [reflexivity|].
  split; [reflexivity|].
  refine (proj1 (lines_reduced_end_to_end scenario_items (B "z") Lines.EOF 1
                   scenario_reduce schedule_lines_one_worker _ _
                   H1 H2 _ Hnp eq_refl eq_refl)).
  lia.
Defined.

(** X11. At most [numWorkers] items are in flight: the items taken from
    the producer never outnumber those whose result has been delivered,
    was nil, or was lost to a panic, by more than the number of
    workers. *)
Theorem items_in_flight_bounded {Item Res : Type}
    (reduceFunc : Item → outcome (Res := Res)) (src : source)
    (numWorkers : Z) (items : list Item)
    (sched : list thread) (tr : list event) (s : state) :
  run reduceFunc src numWorkers sched (start items) = Some (tr, s) →
  (length (received tr)
   ≤ length (delivered tr) + nils tr + length (panics tr)
     + Z.to_nat (Z.max 0 numWorkers))%nat.
Proof.
  intros Hrun.
  pose proof (received_accounted _ _ _ _ _ _ _ Hrun) as Ha.
  pose proof (workers_bounded _ _ _ (control_inv_run _ _ _ _ _ _ _ Hrun)) as Hb.
  pose proof (busy_le_length (ws s)). lia.
Qed.

Lemma items_in_flight_bounded_witness :
  ∃ tr s,
    run scenario_reduce FromChan 2 schedule_two_busy (start scenario_items)
    = Some (tr, s)
    ∧ received tr = [B "a"; B "bb"] ∧ delivered tr = []
    ∧ (length (received tr)
       ≤ length (delivered tr) + nils tr + length (panics tr)
         + Z.to_nat (Z.max 0 2))%nat.
Proof.
  eexists _, _. split; [reflexivity|]. split; [reflexivity|].
  split; [reflexivity|].
  exact (items_in_flight_bounded scenario_reduce FromChan 2 scenario_items
           schedule_two_busy _ _ eq_refl).
Defined.

(* ================================================================== *)
(** * Further properties of go/format *)
(* ================================================================== *)

(** X12. [hasUnsortedImports] reports a file exactly when its
    declarations start with a run of ungrouped import declarations (none
    is allowed) followed by a grouped import declaration; a grouped import
    after any other declaration is not looked at. *)
Theorem hasUnsortedImports_first_grouped_import {Spec Rest : Type}
    (file : @Format.File Spec Rest) :
  Format.hasUnsortedImports file = true
  ↔ ∃ pre Lparen Specs rest,
      Format.Decls file = pre ++ Format.GenDecl Format.IMPORT Lparen Specs :: rest
      ∧ Lparen ≠ 0
      ∧ Forall (λ d, ∃ Specs', d = Format.GenDecl Format.IMPORT 0 Specs') pre.
Proof.
  unfold Format.hasUnsortedImports. rewrite Format.unsorted_from_spec.
  assert (Hv : ∀ p : Z, Format.IsValid p = true ↔ p ≠ 0).
  { intros p. unfold Format.IsValid. destruct (Z.eqb_spec p 0); simpl; split;
      intros; congruence. }
  assert (Hu : ∀ d : @Format.Decl Spec Rest,
    Format.ungrouped_import d = true
    ↔ ∃ Specs', d = Format.GenDecl Format.IMPORT 0 Specs').
  { intros d. split.
    - destruct d as [[| | |] lp specs|r|r]; try done. simpl.
      unfold Format.IsValid. destruct (Z.eqb_spec lp 0) as [->|]; [|done].
      intros _. by exists specs.
    - by intros [specs ->]. }
  split; intros (pre & lp & specs & rest & E & Hlp & Hpre);
    exists pre, lp, specs, rest; (split; [done|]); (split; [by apply Hv|]);
    eapply Forall_impl; [exact Hpre| |exact Hpre|]; intros d; apply Hu.
Qed.

(** X13. [bytes.TrimSpace] aside, the [adjust] closures of [parse] take
    away exactly what the printer has put around the fragment: the package
    clause at the given indentation for a declaration list; for a
    statement list the package clause, the function header and the closing
    brace, with a negative indentation counted as zero. *)
Theorem adjust_removes_wrapping (TrimSpace : list byte → list byte)
    (m : nat) (indent : Z) (body : list byte) :
  Format.adjust_decls TrimSpace (Format.decls_printed m body) (Z.of_nat m)
  = Some (TrimSpace body)
  ∧ Format.adjust_stmts TrimSpace
      (Format.stmts_printed (Z.to_nat indent) body) indent
    = Some (TrimSpace body).
Proof.
  split; [apply Format.adjust_decls_printed | apply Format.adjust_stmts_printed].
Qed.

(** X14. [Source] on a fragment, end to end: when the printer writes the
    parsed file as the package clause (and, for a statement list, the
    function header and closing brace) around a text [body], at the
    indentation [Source] asked for, then [Source] returns the blank lines
    of the input, the indentation as tabs, the trimmed [body] and the
    trailing space of the input; it does not panic. *)
Theorem Source_fragment_unwrapped {Spec Rest Comments FileSet : Type}
    (NewFileSet : FileSet)
    (ParseFile : FileSet → list byte → list byte
                 → FileSet * (@Format.File Spec Rest + Format.error))
    (Fprint : Z → FileSet → @Format.tree Spec Rest Comments
              → list byte * option Format.error)
    (SortImports : FileSet → @Format.File Spec Rest → @Format.File Spec Rest)
    (TrimSpace : list byte → list byte)
    (src : list byte) (fset' : FileSet) (file : @Format.File Spec Rest)
    (adjust : list byte → Z → option (list byte)) (adjustIndent : Z)
    (body : list byte) :
  Format.parse ParseFile TrimSpace NewFileSet [] src true
  = (fset', Format.Parsed file (Some adjust) adjustIndent) →
  Fprint (Format.indent_amount (Format.first_indent src) + adjustIndent)
    fset' (Format.TFile (Some file))
  = (if adjustIndent =? 0
     then Format.decls_printed
            (Z.to_nat (Format.indent_amount (Format.first_indent src)
                       + adjustIndent)) body
     else Format.stmts_printed
            (Z.to_nat (Format.indent_amount (Format.first_indent src)
                       + adjustIndent)) body,
     None) →
  Format.Source NewFileSet ParseFile Fprint SortImports TrimSpace src
  = Format.Ok (Format.blank_lines src
               ++ replicate
                    (Z.to_nat (Format.indent_amount (Format.first_indent src)))
                    tab
               ++ TrimSpace body ++ Format.trailing_space src).
Proof.
  intros Hparse Hprint.
  rewrite (Format.Source_partial_eq NewFileSet ParseFile Fprint SortImports
             TrimSpace _ _ _ _ _ Hparse).
  cbn zeta. rewrite Hprint.
  pose proof (Format.indent_amount_nonneg (Format.first_indent src)) as Hn.
  set (n := Format.indent_amount (Format.first_indent src)) in *.
  destruct (Format.parse_adjust _ _ _ _ _ _ _ _ _ _ Hparse)
    as [[-> ->]|[-> ->]]; simpl (_ =? _).
  - pose proof (Format.adjust_decls_printed TrimSpace (Z.to_nat n) body) as E.
    rewrite Z2Nat.id in E by lia. cbv iota. rewrite Z.add_0_r, E.
    by rewrite <- !(assoc_L (++)).
  - cbv iota. rewrite Format.adjust_stmts_printed.
    by rewrite <- !(assoc_L (++)).
Qed.

Lemma Source_fragment_unwrapped_witness :
  Format.parse recorded_ParseFile ascii_TrimSpace 0%nat [] (B "  x") true
  = (3%nat, Format.Parsed file_x (Some (Format.adjust_stmts ascii_TrimSpace)) (-1))
  ∧ recorded_Fprint (Format.indent_amount (Format.first_indent (B "  x")) + -1)
      3%nat (Format.TFile (Some file_x))
    = (Format.stmts_printed 0 ([nl; tab] ++ B "x"), None)
  ∧ Format.Source 0%nat recorded_ParseFile recorded_Fprint (λ _ f, f)
      ascii_TrimSpace (B "  x")
    = Format.Ok ([tab] ++ B "x").
Proof.
  split; [reflexivity|]. split; [reflexivity|].
  exact (Source_fragment_unwrapped 0%nat recorded_ParseFile recorded_Fprint
           (λ _ f, f) ascii_TrimSpace (B "  x") 3%nat file_x
           (Format.adjust_stmts ascii_TrimSpace) (-1) ([nl; tab] ++ B "x")
           eq_refl eq_refl).
Defined.

(** X15. An input that is white space only, accepted as a fragment whose
    printed body is empty, is not returned as it is: [Source] returns its
    blank lines, then the tabs of the indentation, then the whole input
    again; with a newline in the input the result differs from it. *)
Theorem Source_white_space_only {Spec Rest Comments FileSet : Type}
    (NewFileSet : FileSet)
    (ParseFile : FileSet → list byte → list byte
                 → FileSet * (@Format.File Spec Rest + Format.error))
    (Fprint : Z → FileSet → @Format.tree Spec Rest Comments
              → list byte * option Format.error)
    (SortImports : FileSet → @Format.File Spec Rest → @Format.File Spec Rest)
    (TrimSpace : list byte → list byte)
    (src : list byte) (fset' : FileSet) (file : @Format.File Spec Rest)
    (adjust : list byte → Z → option (list byte)) (adjustIndent : Z)
    (buf : list byte) :
  Forall (λ b, Format.isSpace b = true) src →
  Format.parse ParseFile TrimSpace NewFileSet [] src true
  = (fset', Format.Parsed file (Some adjust) adjustIndent) →
  Fprint (Format.indent_amount (Format.first_indent src) + adjustIndent)
    fset' (Format.TFile (Some file)) = (buf, None) →
  adjust buf (Format.indent_amount (Format.first_indent src) + adjustIndent)
  = Some [] →
  Format.Source NewFileSet ParseFile Fprint SortImports TrimSpace src
  = Format.Ok (Format.blank_lines src
               ++ replicate
                    (Z.to_nat (Format.indent_amount (Format.first_indent src)))
                    tab
               ++ src)
  ∧ (nl ∈ src →
     Format.Source NewFileSet ParseFile Fprint SortImports TrimSpace src
     ≠ Format.Ok src).
Proof.
  intros Hsp Hparse Hprint Hadj.
  rewrite (Format.Source_partial_eq NewFileSet ParseFile Fprint SortImports
             TrimSpace _ _ _ _ _ Hparse).
  cbn zeta. rewrite Hprint, Hadj, Format.all_space_trailing by done.
  rewrite app_nil_r, <- (assoc_L (++)). split; [done|].
  intros Hnl [= E]. apply (f_equal length) in E.
  rewrite !length_app in E.
  assert (Format.blank_lines src ≠ []) as Hb.
  { unfold Format.blank_lines. rewrite Format.leading_space_all by done.
    by apply Format.through_last_nl_nonempty. }
  destruct (Format.blank_lines src); [done|]. simpl in E. lia.
Qed.

Lemma Source_white_space_only_witness :
  Forall (λ b, Format.isSpace b = true) [nl]
  ∧ Format.parse recorded_ParseFile ascii_TrimSpace 0%nat [] [nl] true
    = (2%nat, Format.Parsed file_empty (Some (Format.adjust_decls ascii_TrimSpace)) 0)
  ∧ Format.Source 0%nat recorded_ParseFile recorded_Fprint (λ _ f, f)
      ascii_TrimSpace [nl]
    = Format.Ok [nl; nl].
Proof.
  assert (H : Forall (λ b, Format.isSpace b = true) [nl]) by by repeat constructor.
  split; [exact H|]. split; [reflexivity|].
  exact (proj1 (Source_white_space_only 0%nat recorded_ParseFile recorded_Fprint
                  (λ _ f, f) ascii_TrimSpace [nl] 2%nat file_empty
                  (Format.adjust_decls ascii_TrimSpace) 0 (B "package p" ++ [nl])
                  H eq_refl eq_refl eq_refl)).
Defined.

(** X16. What the scanning loops of [Source] compute: the first loop ends
    with [i] the length of the blank lines in front of the first code line
    and [j] the length of the leading white space; the blank lines end
    with a newline (or there are none) and the indentation between them
    and the code has no newline; the second loop gives the amount of that
    indentation; the last loop ends where the trailing white space
    starts. *)
Theorem Source_scanning_loops (src : list byte) :
  Format.leading src 0 0
  = (length (Format.blank_lines src), length (Format.leading_space src))
  ∧ Format.leading_space src = Format.blank_lines src ++ Format.first_indent src
  ∧ take (length (Format.leading_space src)) src = Format.leading_space src
  ∧ (Format.blank_lines src = [] ∨ ∃ p, Format.blank_lines src = p ++ [nl])
  ∧ (nl ∉ Format.first_indent src)
  ∧ (let '(indent, hasSpace) := Format.count_indent (Format.first_indent src) in
     (if (indent =? 0) && hasSpace then 1 else indent)
     = Format.indent_amount (Format.first_indent src))
  ∧ Format.trailing src (length src)
    = (length src - length (Format.trailing_space src))%nat
  ∧ drop (Format.trailing src (length src)) src = Format.trailing_space src.
Proof.
  split; [apply Format.leading_start|].
  split; [apply Format.leading_space_split|].
  split; [apply Format.take_leading_space|].
  destruct (Format.through_last_nl_spec (Format.leading_space src))
    as (k & Hl & Hk & Hend).
  split; [exact Hend|]. split.
  - unfold Format.first_indent, Format.blank_lines. rewrite Hl at 2.
    by rewrite drop_app_length.
  - split; [apply Format.count_indent_spec|]. split; [|apply Format.trailing_drop].
    rewrite Format.trailing_spec by done. rewrite firstn_all.
    unfold Format.trailing_space. by rewrite length_reverse.
Qed.










